(** * Water-sort solver: a shallow embedding

    The development follows the refactored solver, the module that
    [src/api/routes.ts] imports as [./solver] and whose exploration budget
    is 100000 states: the state model, the move rules, the goal check, the
    bounded breadth-first search and the move annotator.  The older
    imperative solver (budget 1000000, next to [src/api/middleware.ts]) is
    embedded in [Module Original] as far as the comparison needs it.

    Conventions.
    - A [Color] is a JavaScript string; a [Vial] is an array of colors,
      index 0 being the bottom and the last index the top.
    - JavaScript numbers that take part in arithmetic ([count], [units],
      [spaceInDest]) are integers of [Z]; array indices and lengths are
      naturals.
    - A thrown exception is a [Throw] of the error monad [res].
    - [Map<Color, number>] is a finite map ([gmap]) and [Set<string>] a
      finite set ([gset]).
    - The [Record<string, number>] of the color counts is an object literal
      [{}]: a finite map of its own properties, read and written through
      [JsObject.get] and [JsObject.set], which account for the properties
      that every such object inherits from [Object.prototype]. *)

From Stdlib Require Import ZArith Ascii String.
From stdpp Require Import base option list strings gmap.

Local Open Scope Z_scope.

(** ** Exceptions *)

Inductive exn : Set :=
| TypeError      (* a member access on [undefined] *)
| RangeError     (* [Array(n)] with a negative [n] *)
| InvalidMove.   (* [new Error("Invalid move")] *)

Inductive res (A : Type) : Type :=
| Ok (a : A)
| Throw (e : exn).
Arguments Ok {A} a.
Arguments Throw {A} e.

#[global] Instance res_ret : MRet res := λ A a, Ok a.
#[global] Instance res_bind : MBind res := λ A B f m,
  match m with
  | Ok a => f a
  | Throw e => Throw e
  end.

(** ** The JavaScript array primitives the solver relies on *)

Module Js.

(** [o.length], [o[i]] ... on a value that may be [undefined]. *)
Definition member {A} (o : option A) : res A :=
  match o with
  | Some a => Ok a
  | None => Throw TypeError
  end.

(** [Array.prototype.slice(start, end)]: a negative bound counts from the
    end of the array, and both bounds are clamped to [0, length]. *)
Definition relative (len i : Z) : Z :=
  if i <? 0 then Z.max (len + i) 0 else Z.min i len.

Definition slice {A} (l : list A) (start end_ : Z) : list A :=
  let len := Z.of_nat (length l) in
  let k := relative len start in
  let final := relative len end_ in
  take (Z.to_nat (final - k)) (drop (Z.to_nat k) l).

(** [l.slice(start)]: the end bound defaults to the length. *)
Definition slice_from {A} (l : list A) (start : Z) : list A :=
  slice l start (Z.of_nat (length l)).

(** [l.fill(x)] overwrites every entry. *)
Definition fill {A B} (l : list A) (x : B) : list B := map (λ _, x) l.

(** [Array(n)] makes [n] empty slots and throws on a negative [n]. *)
Definition Array (n : Z) : res (list unit) :=
  if n <? 0 then Throw RangeError else Ok (replicate (Z.to_nat n) tt).

(** [l.join(sep)] *)
Definition join (sep : string) (l : list string) : string :=
  String.concat sep l.

(** [l.map(f)] for a callback that sees the index and may throw. *)
Fixpoint mapi_res_from {A B} (f : nat → A → res B) (i : nat) (l : list A)
  : res (list B) :=
  match l with
  | [] => Ok []
  | x :: l' =>
      y ← f i x;
      ys ← mapi_res_from f (S i) l';
      Ok (y :: ys)
  end.
Definition mapi_res {A B} (f : nat → A → res B) (l : list A) : res (list B) :=
  mapi_res_from f 0%nat l.

Definition map_res {A B} (f : A → res B) (l : list A) : res (list B) :=
  mapi_res (λ _, f) l.

(** [l.filter(p)] for a predicate that may throw. *)
Fixpoint filter_res {A} (p : A → res bool) (l : list A) : res (list A) :=
  match l with
  | [] => Ok []
  | x :: l' =>
      b ← p x;
      xs ← filter_res p l';
      Ok (if b : bool then x :: xs else xs)
  end.

(** [l.reduce(f, init)] for a callback that may throw. *)
Fixpoint reduce_res {A B} (f : B → A → res B) (l : list A) (acc : B) : res B :=
  match l with
  | [] => Ok acc
  | x :: l' => acc' ← f acc x; reduce_res f l' acc'
  end.

End Js.

(** ** Types ([src/types/index.ts]) *)

(** [type Color = string] and [type Vial = Color[]] are aliases. *)
Abbreviation Color := string.
Abbreviation Vial := (list string).

Record Move := { from : nat; to : nat }.

Record MoveWithColor :=
  { mfrom : nat; mto : nat; color : Color; units : Z }.

(** ** Constants *)

Definition MAX_VIAL_CAPACITY : Z := 4.
Definition MAX_SEARCH_STATES : nat := Z.to_nat 100000.

(** ** Game state *)

Record GameState := { vials : list Vial; moves : list Move }.

(** The constructor copies both arrays; on immutable lists the copy is the
    value itself. *)
Definition new_GameState (vials : list Vial) (moves : list Move) : GameState :=
  {| vials := vials; moves := moves |}.

Definition toString (state : GameState) : string :=
  Js.join "|" (map (Js.join ",") (vials state)).

Definition clone (state : GameState) : GameState :=
  new_GameState (vials state) (moves state).

(** ** Object literals used as tables *)

(** The property names of [Object.prototype]: every object literal inherits
    them.  ["__proto__"] is an accessor whose getter hands back the
    prototype; the others are methods. *)
Definition objectPrototypeNames : list string :=
  ["constructor"; "__defineGetter__"; "__defineSetter__"; "hasOwnProperty";
   "__lookupGetter__"; "__lookupSetter__"; "isPrototypeOf";
   "propertyIsEnumerable"; "toString"; "valueOf"; "__proto__";
   "toLocaleString"].

(** What an entry of the count table can be: a number, or a value that is
    no number (an inherited method or the prototype itself, and the string
    that [+ 1] makes of either).  A value of the second kind is truthy, and
    [Math.min] turns it into [NaN]. *)
Inductive Tally : Set :=
| Count (n : nat)
| NotNumeric.

Module JsObject.

Definition inherited (key : string) : bool :=
  bool_decide (key ∈ objectPrototypeNames).

(** [o[key]]: the object's own property, else the inherited one, else
    [undefined]. *)
Definition get (o : gmap string Tally) (key : string) : option Tally :=
  match o !! key with
  | Some v => Some v
  | None => if inherited key then Some NotNumeric else None
  end.

(** [o[key] = v]: the key becomes an own property of [o], except for
    ["__proto__"], whose inherited setter ignores a number or a string. *)
Definition set (o : gmap string Tally) (key : string) (v : Tally)
  : gmap string Tally :=
  if String.eqb key "__proto__" then o else <[key := v]> o.

End JsObject.

(** ** Counting colors *)

(** [(v || 0) + 1]: [undefined] counts as 0; on a value that is no number
    [+] is string concatenation. *)
Definition orZeroPlusOne (v : option Tally) : Tally :=
  match v with
  | None => Count 1
  | Some (Count n) => Count (n + 1)
  | Some NotNumeric => NotNumeric
  end.

Definition getTotalColorCounts (vials : list Vial) : gmap Color Tally :=
  foldl (λ counts vial,
           foldl (λ vialCounts color,
                    JsObject.set vialCounts color
                                 (orZeroPlusOne (JsObject.get vialCounts color)))
                 counts vial)
        ∅ vials.

(** ** Goal check *)

(** [vial.length === 0 || vial.every(color => color === vial[0])] *)
Definition monochrome (vial : Vial) : bool :=
  match vial with
  | [] => true
  | c0 :: _ => forallb (λ color, String.eqb color c0) vial
  end.

(** The [every] that fills [colorToVial] while it runs: it stops at the
    first vial whose bottom color is already a key of the map. *)
Fixpoint hasUniqueColors (nonEmptyVials : list (Vial * nat))
    (colorToVial : gmap Color nat) : bool * gmap Color nat :=
  match nonEmptyVials with
  | [] => (true, colorToVial)
  | (vial, index) :: rest =>
      match vial with
      | color :: _ =>
          if bool_decide (is_Some (colorToVial !! color)) then (false, colorToVial)
          else hasUniqueColors rest (<[color := index]> colorToVial)
      | [] => (* excluded by the filter that builds [nonEmptyVials] *)
          hasUniqueColors rest colorToVial
      end
  end.

Definition isSolved (state : GameState) (strictMode : bool) : bool :=
  let basicCheck := forallb monochrome (vials state) in
  if negb basicCheck then false else
  if negb strictMode then true else
  let nonEmptyVials :=
    List.filter (λ p, (0 <? length (fst p))%nat)
                (imap (λ index vial, (vial, index)) (vials state)) in
  let '(unique, colorToVial) := hasUniqueColors nonEmptyVials ∅ in
  if negb unique then false else
  let colorCounts := getTotalColorCounts (vials state) in
  forallb (λ entry : Color * nat,
             let '(color, vialIndex) := entry in
             match vials state !! vialIndex, JsObject.get colorCounts color with
             | Some vial, Some (Count total) =>
                 Z.of_nat (length vial) =? Z.min (Z.of_nat total) MAX_VIAL_CAPACITY
             | _, _ => (* no vial, or an expected count that is [NaN] *)
                 false
             end)
          (map_to_list colorToVial).

(** ** Top color sequence *)

Definition getTopColorSequence (vial : Vial) : option (Color * Z) :=
  match last vial with
  | None => None
  | Some topColor =>
      let count :=
        foldl (λ count color, if String.eqb color topColor then count + 1 else count)
              0 (reverse vial) in
      Some (topColor, count)
  end.

(** ** Move rules *)

Definition isValidMove (state : GameState) (from to : nat) : res bool :=
  let sourceVial := vials state !! from in
  let destVial := vials state !! to in
  source ← Js.member sourceVial;
  if (length source =? 0)%nat then Ok false else
  if (from =? to)%nat then Ok false else
  dest ← Js.member destVial;
  if Z.of_nat (length dest) >=? MAX_VIAL_CAPACITY then Ok false else
  if (length dest =? 0)%nat then Ok true else
  Ok (bool_decide (last source = last dest)).

Definition executeMove (state : GameState) (from to : nat) : res GameState :=
  valid ← isValidMove state from to;
  if negb valid then Throw InvalidMove else
  sourceVial ← Js.member (vials state !! from);
  destVial ← Js.member (vials state !! to);
  match getTopColorSequence sourceVial with
  | None => Ok (clone state)
  | Some (topColor, count) =>
      let spaceInDest := MAX_VIAL_CAPACITY - Z.of_nat (length destVial) in
      let unitsToPour := Z.min count spaceInDest in
      let newVials :=
        imap (λ index vial,
                if (index =? from)%nat then Js.slice vial 0 (- unitsToPour)
                else if (index =? to)%nat then
                  vial ++ Js.fill (Js.slice_from vial (- unitsToPour)) topColor
                else vial)
             (vials state) in
      Ok (new_GameState newVials (moves state ++ [{| from := from; to := to |}]))
  end.

(** ** Successor states *)

Definition all_pairs (n : nat) : list Move :=
  flat_map (λ from, map (λ to, {| from := from; to := to |}) (seq 0 n)) (seq 0 n).

Definition generateNextStates (state : GameState) : res (list GameState) :=
  candidates ←
    Js.filter_res (λ m, isValidMove state (from m) (to m))
                  (all_pairs (length (vials state)));
  Js.map_res (λ m, executeMove state (from m) (to m)) candidates.

(** ** Move annotation *)

Definition enrichStep (acc : list MoveWithColor * list Vial) (m : Move)
  : res (list MoveWithColor * list Vial) :=
  let '(moves, vials) := acc in
  let from := from m in
  let to := to m in
  sourceVial ← Js.member (vials !! from);
  if (length sourceVial =? 0)%nat then Ok (moves, vials) else
  match last sourceVial return res (list MoveWithColor * list Vial) with
  | None => Ok (moves, vials)
  | Some topColor =>
      let count :=
        foldl (λ count color, if String.eqb color topColor then count + 1 else count)
              0 (reverse sourceVial) in
      destVial ← Js.member (vials !! to);
      let spaceInDest := MAX_VIAL_CAPACITY - Z.of_nat (length destVial) in
      let unitsToPour := Z.min count spaceInDest in
      newVials ←
        Js.mapi_res (λ index vial,
                       if (index =? from)%nat then Ok (Js.slice vial 0 (- unitsToPour))
                       else if (index =? to)%nat then
                         slots ← Js.Array unitsToPour;
                         Ok (vial ++ Js.fill slots topColor)
                       else Ok vial)
                    vials;
      Ok (moves ++ [{| mfrom := from; mto := to; color := topColor;
                       units := unitsToPour |}],
          newVials)
  end.

Definition enrichMoves (moves : list Move) (initialVials : list Vial)
  : res (list MoveWithColor) :=
  acc ← Js.reduce_res enrichStep moves ([], initialVials);
  Ok (fst acc).

(** ** Breadth-first search *)

(** The [find] of [processState]: every candidate it looks at is marked
    visited and queued, and it stops at the first solved one. *)
Fixpoint findSolution (strictMode : bool) (candidates : list GameState)
    (visited : gset string) (queue : list GameState)
  : option GameState * gset string * list GameState :=
  match candidates with
  | [] => (None, visited, queue)
  | nextState :: rest =>
      let stateStr := toString nextState in
      let visited := {[ stateStr ]} ∪ visited in
      let queue := queue ++ [nextState] in
      if isSolved nextState strictMode then (Some nextState, visited, queue)
      else findSolution strictMode rest visited queue
  end.

Definition processState (initialVials : list Vial) (strictMode : bool)
    (state : GameState) (visited : gset string) (queue : list GameState)
  : res (option (list MoveWithColor) * gset string * list GameState) :=
  nextStates ← generateNextStates state;
  let unseen :=
    List.filter (λ nextState, negb (bool_decide (toString nextState ∈ visited)))
                nextStates in
  let '(solution, visited, queue) := findSolution strictMode unseen visited queue in
  match solution with
  | Some s =>
      enriched ← enrichMoves (moves s) initialVials;
      Ok (Some enriched, visited, queue)
  | None => Ok (None, visited, queue)
  end.

(** The [while] loop.  [fuel] bounds the iterations of the model only; the
    loop's own guard is the test on [queue] and [statesExplored].  The
    second component of the answer is the final value of [statesExplored],
    the number of states taken off the queue. *)
Fixpoint searchLoop (fuel : nat) (initialVials : list Vial) (strictMode : bool)
    (queue : list GameState) (visited : gset string) (statesExplored : nat)
  : option (res (option (list MoveWithColor)) * nat) :=
  match fuel with
  | O => None
  | S fuel' =>
      match queue with
      | currentState :: queue =>
          if (statesExplored <? MAX_SEARCH_STATES)%nat then
            let statesExplored := S statesExplored in
            match processState initialVials strictMode currentState visited queue with
            | Throw e => Some (Throw e, statesExplored)
            | Ok (Some solution, _, _) => Some (Ok (Some solution), statesExplored)
            | Ok (None, visited, queue) =>
                searchLoop fuel' initialVials strictMode queue visited statesExplored
            end
          else Some (Ok None, statesExplored)
      | [] => Some (Ok None, statesExplored)
      end
  end.

Definition solvePuzzleFuel (fuel : nat) (initialVials : list Vial)
    (strictMode : bool) : option (res (option (list MoveWithColor)) * nat) :=
  let initialState := new_GameState initialVials [] in
  if isSolved initialState strictMode then Some (Ok (Some []), 0%nat) else
  searchLoop fuel initialVials strictMode
             [initialState] {[ toString initialState ]} 0%nat.

(** [solvePuzzle]: the loop is given one unit of fuel more than its budget,
    which is enough for it to leave through its own guard. *)
Definition solvePuzzle (initialVials : list Vial) (strictMode : bool)
  : option (res (option (list MoveWithColor))) :=
  fst <$> solvePuzzleFuel (S MAX_SEARCH_STATES) initialVials strictMode.

(** ** The vials of a pour, and runs of moves *)

(** The array that [executeMove] builds with [state.vials.map]. *)
Definition pouredVials (vs : list Vial) (from to : nat) (topColor : Color)
    (unitsToPour : Z) : list Vial :=
  imap (λ index vial,
          if (index =? from)%nat then Js.slice vial 0 (- unitsToPour)
          else if (index =? to)%nat then
            vial ++ Js.fill (Js.slice_from vial (- unitsToPour)) topColor
          else vial) vs.

(** A sequence of moves applied one after the other with [executeMove]; the
    run throws as soon as one of them is not valid. *)
Fixpoint applyMoves (state : GameState) (ms : list Move) : res GameState :=
  match ms with
  | [] => Ok state
  | m :: rest =>
      state' ← executeMove state (from m) (to m);
      applyMoves state' rest
  end.

(** The number of entries of a vial that carry a given color. *)
Definition occurrences (c : Color) (vial : Vial) : Z :=
  foldl (λ count color, if String.eqb color c then count + 1 else count) 0 vial.

(** The number of entries of a configuration that carry a given color. *)
Definition totalCount (c : Color) (vs : list Vial) : nat :=
  length (List.filter (λ color, String.eqb color c) (concat vs)).

(** ** The search without its error plumbing

    [generateNextStates] never throws on the states of a search; the
    definitions below are the same computation on plain values, together
    with a loop that hands back the solved state it found rather than its
    annotation. *)

Definition validMove (state : GameState) (m : Move) : bool :=
  match isValidMove state (from m) (to m) with
  | Ok b => b
  | Throw _ => false
  end.

Definition moved (state : GameState) (m : Move) : GameState :=
  match executeMove state (from m) (to m) with
  | Ok state' => state'
  | Throw _ => state
  end.

Definition successors (state : GameState) : list GameState :=
  map (moved state)
      (List.filter (validMove state) (all_pairs (length (vials state)))).

Definition unseen (visited : gset string) (nextStates : list GameState)
  : list GameState :=
  List.filter (λ nextState, negb (bool_decide (toString nextState ∈ visited)))
              nextStates.

Fixpoint searchRaw (fuel : nat) (strictMode : bool)
    (queue : list GameState) (visited : gset string) (statesExplored : nat)
  : option (option GameState * nat) :=
  match fuel with
  | O => None
  | S fuel' =>
      match queue with
      | currentState :: queue =>
          if (statesExplored <? MAX_SEARCH_STATES)%nat then
            let statesExplored := S statesExplored in
            match findSolution strictMode (unseen visited (successors currentState))
                               visited queue with
            | (Some s, _, _) => Some (Some s, statesExplored)
            | (None, visited, queue) =>
                searchRaw fuel' strictMode queue visited statesExplored
            end
          else Some (None, statesExplored)
      | [] => Some (None, statesExplored)
      end
  end.

(** The raw path of the search: the [moves] of the solved state it stops at. *)
Definition solveRaw (initialVials : list Vial) (strictMode : bool)
  : option (option (list Move)) :=
  let initialState := new_GameState initialVials [] in
  if isSolved initialState strictMode then Some (Some []) else
  match searchRaw (S MAX_SEARCH_STATES) strictMode
                  [initialState] {[ toString initialState ]} 0%nat with
  | Some (found, _) => Some (moves <$> found)
  | None => None
  end.

(** What [processState] makes of the outcome of its [find]. *)
Definition annotated (initialVials : list Vial) (found : option GameState)
  : res (option (list MoveWithColor)) :=
  match found with
  | Some s => enriched ← enrichMoves (moves s) initialVials; Ok (Some enriched)
  | None => Ok None
  end.

(** ** Replaying an annotated sequence

    This replay is not code of the solver: it follows the wording of the
    annotator-consistency property, for which each annotated move takes
    [units] entries off the top of vial [from] and puts [units] entries of
    [color] on top of vial [to]. *)

Definition transfer (vs : list Vial) (m : MoveWithColor) : list Vial :=
  imap (λ index vial,
          if (index =? mfrom m)%nat then take (length vial - Z.to_nat (units m)) vial
          else if (index =? mto m)%nat then vial ++ replicate (Z.to_nat (units m)) (color m)
          else vial) vs.

Definition replayAnnotated (annotated : list MoveWithColor) (initialVials : list Vial)
  : list Vial :=
  foldl transfer initialVials annotated.

(** ** Color names on which the string key is faithful *)

Fixpoint hasChar (ch : ascii) (s : string) : bool :=
  match s with
  | EmptyString => false
  | String a s' => Ascii.eqb a ch || hasChar ch s'
  end.

(** A plain color name is not empty and holds neither of the two
    delimiters of [toString]. *)
Definition plainColor (c : Color) : bool :=
  negb (String.eqb c "") && negb (hasChar "," c) && negb (hasChar "|" c).

Definition plainColors (vs : list Vial) : bool :=
  forallb (forallb plainColor) vs.

(** ** The older solver ([MAX_SEARCH_STATES = 1000000])

    Only the two functions in which it differs from the refactored solver:
    its run counter breaks at the first entry of another color, and its
    pour moves the entries one by one with [pop] and [push]. *)

Module Original.

(** [for (i = vial.length - 1; i >= 0; i--) { if (vial[i] === topColor)
    count++; else break; }], read from the top of the vial downwards. *)
Fixpoint countFromTop (topColor : Color) (fromTop : list Color) : Z :=
  match fromTop with
  | [] => 0
  | c :: below =>
      if String.eqb c topColor then 1 + countFromTop topColor below else 0
  end.

Definition getTopColorSequence (vial : Vial) : option (Color * Z) :=
  match last vial with
  | None => None
  | Some topColor => Some (topColor, countFromTop topColor (reverse vial))
  end.

(** [for (i = 0; i < unitsToPour; i++) destVial.push(sourceVial.pop()!)].
    [unitsToPour] never exceeds the length of the source, so [pop] always
    finds an entry; the loop of the model stops if it does not. *)
Fixpoint pourUnits (n : nat) (sourceVial destVial : Vial) : Vial * Vial :=
  match n with
  | O => (sourceVial, destVial)
  | S n' =>
      match last sourceVial with
      | Some c => pourUnits n' (removelast sourceVial) (destVial ++ [c])
      | None => (sourceVial, destVial)
      end
  end.

Definition executeMove (state : GameState) (from to : nat) : res GameState :=
  valid ← isValidMove state from to;
  if negb valid then Throw InvalidMove else
  sourceVial ← Js.member (vials state !! from);
  destVial ← Js.member (vials state !! to);
  match getTopColorSequence sourceVial with
  | None => Ok (clone state)
  | Some (_, count) =>
      let spaceInDest := MAX_VIAL_CAPACITY - Z.of_nat (length destVial) in
      let unitsToPour := Z.min count spaceInDest in
      let '(sourceVial', destVial') :=
        pourUnits (Z.to_nat unitsToPour) sourceVial destVial in
      Ok (new_GameState (<[to := destVial']> (<[from := sourceVial']> (vials state)))
                        (moves state ++ [{| from := from; to := to |}]))
  end.

End Original.

(** ** Auxiliary notions of the proofs *)

(** One step of the fold of [getTotalColorCounts]. *)
Definition countColor (vialCounts : gmap string Tally) (color : string)
  : gmap string Tally :=
  JsObject.set vialCounts color (orZeroPlusOne (JsObject.get vialCounts color)).

(** The own property that [getTotalColorCounts] ends with for a color met
    [n] times. *)
Definition tallyOf (c : Color) (n : nat) : option Tally :=
  if (n =? 0)%nat then None
  else if String.eqb c "__proto__" then None
  else if JsObject.inherited c then Some NotNumeric
  else Some (Count n).

(** The states that valid moves lead to from the initial configuration. *)
Definition Reach (initialVials : list Vial) (s : GameState) : Prop :=
  ∃ ms, applyMoves (new_GameState initialVials []) ms = Ok s.

(** The invariant of the loop.  The queue is [A ++ B]: the states of [A]
    lie [d] moves from the start and those of [B] one move further; every
    queued state is visited; no visited state is solved; a visited state
    that has left the queue has all its successors visited; and every state
    within [d] moves of the start is visited and not in [B]. *)
Definition Level (initialVials : list Vial) (strictMode : bool) (d : nat)
    (A B : list GameState) (visited : gset string) : Prop :=
  Forall (λ s, Reach initialVials s ∧ length (moves s) = d) A ∧
  Forall (λ s, Reach initialVials s ∧ length (moves s) = S d) B ∧
  (∀ s, s ∈ A ++ B → toString s ∈ visited) ∧
  (∀ s, Reach initialVials s → toString s ∈ visited →
        isSolved s strictMode = false) ∧
  (∀ s m, Reach initialVials s → toString s ∈ visited →
          vials s ∉ vials <$> (A ++ B) →
          validMove s m = true → toString (moved s m) ∈ visited) ∧
  (∀ s, Reach initialVials s → (length (moves s) ≤ d)%nat →
        toString s ∈ visited ∧ vials s ∉ vials <$> B).

(** ** The [/solve] route ([apiRouter.post('/solve', ...)])

    The body of the handler, from the validated request to the JSON answer
    and its status.  The text of [error.message] for an exception that the
    engine raises is not fixed by the source; it is a parameter. *)

Record SolverResult :=
  { success : bool; result_moves : list MoveWithColor; message : option string }.

Record Response := { body : SolverResult; status : Z }.

Section SolveRoute.
Variable error_message : exn → string.

Definition solveRoute (vials : list Vial) (strictMode : bool) : option Response :=
  match solvePuzzle vials strictMode with
  | None => None
  | Some (Ok None) =>
      Some {| body := {| success := false; result_moves := [];
                         message := Some "No solution found. The puzzle may be unsolvable or too complex." |};
              status := 200 |}
  | Some (Ok (Some solution)) =>
      Some {| body := {| success := true; result_moves := solution; message := None |};
              status := 200 |}
  | Some (Throw e) =>
      Some {| body := {| success := false; result_moves := [];
                         message := Some (error_message e) |};
              status := 500 |}
  end.
End SolveRoute.

(** ** The replay of the solution viewer ([generateVialStates])

    The viewer replays the annotated moves on a copy of the initial vials
    and keeps a snapshot after each move.  [pop] on an empty array gives
    [undefined], which [push] stores; the copy through JSON turns it into
    [null]. *)

Module Viewer.

Inductive slot : Type :=
| Entry (c : string)
| Undefined
| Null.

Definition entries (vs : list Vial) : list (list slot) := map (map Entry) vs.

(** [JSON.parse(JSON.stringify(vials))] *)
Definition jsonCopy (vs : list (list slot)) : list (list slot) :=
  map (map (λ x, match x with Undefined => Null | _ => x end)) vs.

(** [vial.pop()]: the last entry and the array without it. *)
Definition pop (vial : list slot) : slot * list slot :=
  match last vial with
  | Some x => (x, removelast vial)
  | None => (Undefined, vial)
  end.

(** [destVial.push(sourceVial.pop())] on the arrays at [to] and [from],
    which are one and the same array when [from = to]. *)
Definition pourOne (currentVials : list (list slot)) (from to : nat)
  : res (list (list slot)) :=
  _ ← Js.member (currentVials !! to);
  sourceVial ← Js.member (currentVials !! from);
  let '(x, rest) := pop sourceVial in
  let popped := <[from := rest]> currentVials in
  destVial ← Js.member (popped !! to);
  Ok (<[to := destVial ++ [x]]> popped).

(** [for (let i = 0; i < move.units; i++) ...] *)
Fixpoint pourLoop (n : nat) (currentVials : list (list slot)) (from to : nat)
  : res (list (list slot)) :=
  match n with
  | O => Ok currentVials
  | S n' =>
      poured ← pourOne currentVials from to;
      pourLoop n' poured from to
  end.

(** [for (const move of moves) { ...; states.push(copy of currentVials) }] *)
Fixpoint replay (moves : list MoveWithColor) (currentVials : list (list slot))
    (states : list (list (list slot))) : res (list (list (list slot))) :=
  match moves with
  | [] => Ok states
  | move :: rest =>
      poured ← pourLoop (Z.to_nat (units move)) currentVials (mfrom move) (mto move);
      replay rest poured (states ++ [jsonCopy poured])
  end.

Definition generateVialStates (initialVials : list Vial)
    (moves : list MoveWithColor) : res (list (list (list slot))) :=
  replay moves (jsonCopy (entries initialVials)) [entries initialVials].

End Viewer.

(** ** Auxiliary notions for the annotator and the older solver *)

(** The array that one step of [enrichMoves] builds with [vials.map]. *)
Definition enrichedVials (vs : list (list string)) (from to : nat) (topColor : string)
    (unitsToPour : Z) : list (list string) :=
  imap (λ index vial,
          if (index =? from)%nat then Js.slice vial 0 (- unitsToPour)
          else if (index =? to)%nat then
            vial ++ replicate (Z.to_nat unitsToPour) topColor
          else vial) vs.

Definition pairOfMove (m : Move) : nat * nat := (from m, to m).
Definition pairOfAnnotated (a : MoveWithColor) : nat * nat := (mfrom a, mto a).

(** The capacity invariant of the annotator's replay. *)
Definition withinCapacity (vs : list (list string)) : Prop :=
  Forall (λ vial : list string, Z.of_nat (length vial) ≤ MAX_VIAL_CAPACITY) vs.

Definition inRange (n : nat) (m : Move) : Prop := (from m < n)%nat ∧ (to m < n)%nat.

(** The number of entries of one vial that carry a given color. *)
Definition colorCount (c : string) (vial : list string) : nat :=
  length (List.filter (λ color, String.eqb color c) vial).

(** * Proofs *)

(** ** Facts about the array primitives *)

Lemma slice_drop_last {A} (l : list A) (u : Z) :
  0 < u → Js.slice l 0 (- u) = take (length l - Z.to_nat u) l.
Proof.
  intros Hu. unfold Js.slice, Js.relative.
  destruct (Z.ltb_spec 0 0) as [?|_]; [lia|].
  destruct (Z.ltb_spec (- u) 0) as [_|?]; [|lia].
  rewrite (Z.min_l 0) by lia. simpl. f_equal. lia.
Qed.

Lemma slice_from_last {A} (l : list A) (u : Z) :
  0 < u → Js.slice_from l (- u) = drop (length l - Z.to_nat u) l.
Proof.
  intros Hu. unfold Js.slice_from, Js.slice, Js.relative.
  destruct (Z.ltb_spec (- u) 0) as [_|?]; [|lia].
  destruct (Z.ltb_spec (Z.of_nat (length l)) 0) as [?|_]; [lia|].
  rewrite Z.min_id.
  replace (Z.to_nat (Z.max (Z.of_nat (length l) + - u) 0)) with (length l - Z.to_nat u)%nat by lia.
  apply take_ge. rewrite length_drop. lia.
Qed.

Lemma slice_zero_end {A} (l : list A) : Js.slice l 0 (- 0) = [].
Proof. unfold Js.slice, Js.relative. simpl. by rewrite Z.sub_diag. Qed.

Lemma fill_replicate {A B} (l : list A) (x : B) :
  Js.fill l x = replicate (length l) x.
Proof. unfold Js.fill. induction l; simpl; congruence. Qed.

(** ** Facts about [getTopColorSequence] *)

Lemma foldl_count_shift c (l : Vial) (n : Z) :
  foldl (λ count color, if String.eqb color c then count + 1 else count) n l
  = n + occurrences c l.
Proof.
  unfold occurrences. revert n. induction l as [|x l IH]; intros n; simpl; [lia|].
  rewrite IH, (IH (if String.eqb x c then 0 + 1 else 0)).
  destruct (String.eqb x c); lia.
Qed.

Lemma occurrences_app c l1 l2 :
  occurrences c (l1 ++ l2) = occurrences c l1 + occurrences c l2.
Proof.
  unfold occurrences at 1. rewrite foldl_app.
  fold (occurrences c l1). by rewrite foldl_count_shift.
Qed.

Lemma occurrences_nil c : occurrences c [] = 0.
Proof. reflexivity. Qed.

Lemma occurrences_cons c x l :
  occurrences c (x :: l) = (if String.eqb x c then 1 else 0) + occurrences c l.
Proof.
  unfold occurrences at 1. simpl. rewrite foldl_count_shift.
  destruct (String.eqb x c); lia.
Qed.

Lemma occurrences_bounds c l : 0 ≤ occurrences c l ≤ Z.of_nat (length l).
Proof.
  induction l as [|x l IH]; [unfold occurrences; simpl; lia|].
  rewrite occurrences_cons. destruct (String.eqb x c); simpl length; lia.
Qed.

Lemma occurrences_reverse c l : occurrences c (reverse l) = occurrences c l.
Proof.
  induction l as [|x l IH]; [done|].
  rewrite reverse_cons, occurrences_app, IH, !occurrences_cons, occurrences_nil.
  lia.
Qed.

Lemma getTopColorSequence_eq vial :
  getTopColorSequence vial =
  (λ topColor, (topColor, occurrences topColor vial)) <$> last vial.
Proof.
  unfold getTopColorSequence. destruct (last vial) as [c|]; simpl; [|done].
  by fold (occurrences c (reverse vial)); rewrite occurrences_reverse.
Qed.

Lemma getTopColorSequence_bounds vial c n :
  getTopColorSequence vial = Some (c, n) →
  last vial = Some c ∧ 1 ≤ n ≤ Z.of_nat (length vial).
Proof.
  rewrite getTopColorSequence_eq. destruct (last vial) as [c'|] eqn:Hl; simpl; [|done].
  intros [= -> <-]. split; [done|].
  apply last_Some in Hl as [l' ->]. rewrite occurrences_app, length_app.
  pose proof (occurrences_bounds c l').
  rewrite occurrences_cons, String.eqb_refl, occurrences_nil. simpl length. lia.
Qed.

(** ** Move rules *)

Lemma isValidMove_in_range state from to source dest :
  vials state !! from = Some source →
  vials state !! to = Some dest →
  isValidMove state from to =
    Ok (if (length source =? 0)%nat then false
        else if (from =? to)%nat then false
        else if Z.of_nat (length dest) >=? MAX_VIAL_CAPACITY then false
        else if (length dest =? 0)%nat then true
        else bool_decide (last source = last dest)).
Proof.
  intros Hs Hd. unfold isValidMove. rewrite Hs, Hd. simpl.
  repeat case_match; done.
Qed.

Lemma isValidMove_true state from to :
  isValidMove state from to = Ok true →
  ∃ source dest,
    vials state !! from = Some source ∧ vials state !! to = Some dest ∧
    source ≠ [] ∧ from ≠ to ∧ (length dest < 4)%nat ∧
    (dest = [] ∨ last source = last dest).
Proof.
  unfold isValidMove. destruct (vials state !! from) as [source|] eqn:Hs; simpl; [|done].
  destruct (Nat.eqb_spec (length source) 0); [done|].
  destruct (Nat.eqb_spec from to); [done|].
  destruct (vials state !! to) as [dest|] eqn:Hd; simpl; [|done].
  unfold MAX_VIAL_CAPACITY.
  destruct (Z.geb_spec (Z.of_nat (length dest)) 4); [done|].
  intros Hb. exists source, dest. repeat split; try done.
  - by destruct source.
  - lia.
  - destruct (Nat.eqb_spec (length dest) 0) as [E|E].
    + left. by destruct dest.
    + right. injection Hb as Hb. by apply bool_decide_eq_true in Hb.
Qed.

Lemma isValidMove_vials s1 s2 from to :
  vials s1 = vials s2 → isValidMove s1 from to = isValidMove s2 from to.
Proof. unfold isValidMove. by intros ->. Qed.

Lemma executeMove_valid state from to source dest :
  isValidMove state from to = Ok true →
  vials state !! from = Some source →
  vials state !! to = Some dest →
  ∃ topColor count,
    getTopColorSequence source = Some (topColor, count) ∧
    executeMove state from to =
      Ok (new_GameState
            (pouredVials (vials state) from to topColor
               (Z.min count (MAX_VIAL_CAPACITY - Z.of_nat (length dest))))
            (moves state ++ [{| from := from; to := to |}])).
Proof.
  intros Hv Hs Hd. unfold executeMove. rewrite Hv, Hs, Hd. simpl.
  apply isValidMove_true in Hv as (s' & d' & Hs' & Hd' & Hne & _).
  assert (s' = source) as -> by congruence.
  destruct (getTopColorSequence source) as [[c n]|] eqn:Ht.
  - by exists c, n.
  - rewrite getTopColorSequence_eq in Ht.
    destruct (last source) eqn:Hl; [done|]. by apply last_None in Hl.
Qed.

Lemma executeMove_invalid state from to :
  isValidMove state from to ≠ Ok true → ∀ s', executeMove state from to ≠ Ok s'.
Proof.
  intros Hv s'. unfold executeMove.
  destruct (isValidMove state from to) as [[|]|]; simpl; done.
Qed.

Lemma pouredVials_from vs from to c u source :
  vs !! from = Some source → 0 < u →
  pouredVials vs from to c u !! from = Some (take (length source - Z.to_nat u) source).
Proof.
  intros Hs Hu. unfold pouredVials. rewrite list_lookup_imap, Hs. simpl.
  by rewrite Nat.eqb_refl, slice_drop_last.
Qed.

Lemma pouredVials_to vs from to c u dest :
  vs !! to = Some dest → from ≠ to → 0 < u →
  pouredVials vs from to c u !! to =
    Some (dest ++ replicate (Z.to_nat (Z.min u (Z.of_nat (length dest)))) c).
Proof.
  intros Hd Hne Hu. unfold pouredVials. rewrite list_lookup_imap, Hd. simpl.
  destruct (Nat.eqb_spec to from); [congruence|]. rewrite Nat.eqb_refl.
  rewrite fill_replicate, slice_from_last, length_drop by done.
  do 3 f_equal. lia.
Qed.

Lemma pouredVials_other vs from to c u i :
  i ≠ from → i ≠ to → pouredVials vs from to c u !! i = vs !! i.
Proof.
  intros Hf Ht. unfold pouredVials. rewrite list_lookup_imap.
  destruct (vs !! i); simpl; [|done].
  destruct (Nat.eqb_spec i from); [done|]. by destruct (Nat.eqb_spec i to).
Qed.

Lemma pouredVials_length vs from to c u :
  length (pouredVials vs from to c u) = length vs.
Proof. apply length_imap. Qed.

(** ** [generateNextStates] does not throw *)

Lemma filter_res_total {A} (p : A → res bool) (q : A → bool) (l : list A) :
  (∀ x, x ∈ l → p x = Ok (q x)) →
  Js.filter_res p l = Ok (List.filter q l).
Proof.
  induction l as [|x l IH]; intros Hp; simpl; [done|].
  rewrite (Hp x) by left. simpl.
  rewrite IH by (intros y Hy; apply Hp; by right). simpl.
  by destruct (q x).
Qed.

Lemma mapi_res_from_total {A B} (f : nat → A → res B) (g : A → B) (l : list A) i :
  (∀ j x, x ∈ l → f j x = Ok (g x)) →
  Js.mapi_res_from f i l = Ok (map g l).
Proof.
  revert i. induction l as [|x l IH]; intros i Hf; simpl; [done|].
  rewrite (Hf i x) by left. simpl.
  rewrite IH by (intros j y Hy; apply Hf; by right). done.
Qed.

Lemma map_res_total {A B} (f : A → res B) (g : A → B) (l : list A) :
  (∀ x, x ∈ l → f x = Ok (g x)) → Js.map_res f l = Ok (map g l).
Proof. intros Hf. apply mapi_res_from_total. intros _. apply Hf. Qed.

Lemma all_pairs_in_range n m :
  m ∈ all_pairs n → (from m < n)%nat ∧ (to m < n)%nat.
Proof.
  unfold all_pairs. rewrite list_elem_of_In, in_flat_map.
  intros (f & Hf & Hm). apply in_map_iff in Hm as (t & <- & Ht).
  apply in_seq in Hf, Ht. simpl. lia.
Qed.

Lemma all_pairs_complete n f t :
  (f < n)%nat → (t < n)%nat → {| from := f; to := t |} ∈ all_pairs n.
Proof.
  intros Hf Ht. unfold all_pairs. rewrite list_elem_of_In, in_flat_map.
  exists f. split; [apply in_seq; lia|].
  apply in_map_iff. exists t. split; [done|]. apply in_seq; lia.
Qed.

Lemma isValidMove_total state f t :
  (f < length (vials state))%nat → (t < length (vials state))%nat →
  isValidMove state f t = Ok (validMove state {| from := f; to := t |}).
Proof.
  intros Hf Ht.
  apply lookup_lt_is_Some in Hf as [source Hs].
  apply lookup_lt_is_Some in Ht as [dest Hd].
  unfold validMove. simpl.
  by rewrite (isValidMove_in_range _ _ _ _ _ Hs Hd).
Qed.

Lemma validMove_true state m :
  validMove state m = true ↔ isValidMove state (from m) (to m) = Ok true.
Proof.
  unfold validMove. destruct (isValidMove state (from m) (to m)) as [b|e].
  - split; [by intros ->|by intros [= ->]].
  - done.
Qed.

Lemma executeMove_moved state m :
  validMove state m = true →
  executeMove state (from m) (to m) = Ok (moved state m).
Proof.
  intros Hv. apply validMove_true in Hv.
  destruct (isValidMove_true _ _ _ Hv) as (source & dest & Hs & Hd & _).
  destruct (executeMove_valid _ _ _ _ _ Hv Hs Hd) as (c & n & _ & He).
  unfold moved. by rewrite He.
Qed.

Lemma executeMove_Ok state f t state' :
  executeMove state f t = Ok state' →
  validMove state {| from := f; to := t |} = true ∧
  state' = moved state {| from := f; to := t |}.
Proof.
  intros He.
  destruct (isValidMove state f t) as [[|]|e] eqn:Hv.
  - split; [by apply validMove_true|]. unfold moved. simpl. by rewrite He.
  - unfold executeMove in He. by rewrite Hv in He.
  - unfold executeMove in He. by rewrite Hv in He.
Qed.

Lemma generateNextStates_successors state :
  generateNextStates state = Ok (successors state).
Proof.
  unfold generateNextStates, successors.
  rewrite (filter_res_total _ (validMove state)).
  - simpl. apply map_res_total. intros m Hm.
    apply list_elem_of_In, filter_In in Hm as [_ Hm].
    by apply executeMove_moved.
  - intros [f t] Hm. apply all_pairs_in_range in Hm as [Hf Ht].
    by apply isValidMove_total.
Qed.

(** ** The loop and its raw counterpart *)

Lemma processState_raw initialVials strictMode state visited queue :
  processState initialVials strictMode state visited queue =
    let '(solution, visited', queue') :=
      findSolution strictMode (unseen visited (successors state)) visited queue in
    match solution with
    | Some s =>
        enriched ← enrichMoves (moves s) initialVials;
        Ok (Some enriched, visited', queue')
    | None => Ok (None, visited', queue')
    end.
Proof.
  unfold processState. by rewrite generateNextStates_successors.
Qed.

Lemma searchLoop_raw fuel initialVials strictMode queue visited explored :
  searchLoop fuel initialVials strictMode queue visited explored =
    match searchRaw fuel strictMode queue visited explored with
    | Some (found, n) => Some (annotated initialVials found, n)
    | None => None
    end.
Proof.
  revert queue visited explored.
  induction fuel as [|fuel IH]; intros queue visited explored; simpl; [done|].
  destruct queue as [|currentState queue]; [done|].
  destruct (explored <? MAX_SEARCH_STATES)%nat; [|done].
  rewrite processState_raw.
  destruct (findSolution strictMode (unseen visited (successors currentState))
              visited queue) as [[[s|] visited'] queue'].
  - simpl. by destruct (enrichMoves (moves s) initialVials).
  - apply IH.
Qed.

(** ** Termination of the loop *)

Lemma searchRaw_enough_fuel fuel strictMode queue visited explored :
  (MAX_SEARCH_STATES - explored < fuel)%nat →
  ∃ found n,
    searchRaw fuel strictMode queue visited explored = Some (found, n) ∧
    (explored ≤ n)%nat ∧ (n ≤ Nat.max explored MAX_SEARCH_STATES)%nat ∧
    ∀ fuel', (MAX_SEARCH_STATES - explored < fuel')%nat →
      searchRaw fuel' strictMode queue visited explored = Some (found, n).
Proof.
  revert queue visited explored.
  induction fuel as [|fuel IH]; intros queue visited explored Hfuel; [lia|].
  destruct queue as [|currentState queue].
  { exists None, explored. split_and!; [done|lia|lia|].
    intros [|fuel'] ?; [lia|done]. }
  simpl. destruct (Nat.ltb_spec explored MAX_SEARCH_STATES) as [Hlt|Hge].
  - destruct (findSolution strictMode (unseen visited (successors currentState))
                visited queue) as [[[s|] visited'] queue'] eqn:Hfind.
    + exists (Some s), (S explored). split_and!; [done|lia|lia|].
      intros [|fuel'] ?; [lia|]. simpl.
      destruct (Nat.ltb_spec explored MAX_SEARCH_STATES); [|lia]. by rewrite Hfind.
    + destruct (IH queue' visited' (S explored)) as (found & n & Hrun & Hlo & Hhi & Hany);
        [lia|].
      exists found, n. split_and!; [done|lia|lia|].
      intros [|fuel'] ?; [lia|]. simpl.
      destruct (Nat.ltb_spec explored MAX_SEARCH_STATES); [|lia]. rewrite Hfind.
      apply Hany. lia.
  - exists None, explored. split_and!; [done|lia|lia|].
    intros [|fuel'] ?; [lia|]. simpl.
    destruct (Nat.ltb_spec explored MAX_SEARCH_STATES); [lia|done].
Qed.

(** ** Runs of moves *)

Lemma applyMoves_app state ms1 ms2 :
  applyMoves state (ms1 ++ ms2) = applyMoves state ms1 ≫= λ s, applyMoves s ms2.
Proof.
  revert state. induction ms1 as [|m ms1 IH]; intros state; simpl; [done|].
  destruct (executeMove state (from m) (to m)); simpl; [apply IH|done].
Qed.

Lemma moved_moves state m :
  validMove state m = true → moves (moved state m) = moves state ++ [m].
Proof.
  intros Hv. pose proof (executeMove_moved _ _ Hv) as He.
  apply validMove_true in Hv.
  destruct (isValidMove_true _ _ _ Hv) as (source & dest & Hs & Hd & _).
  destruct (executeMove_valid _ _ _ _ _ Hv Hs Hd) as (c & n & _ & He').
  rewrite He in He'. injection He' as ->. simpl. by destruct m.
Qed.

Lemma applyMoves_moves state ms state' :
  applyMoves state ms = Ok state' → moves state' = moves state ++ ms.
Proof.
  revert state. induction ms as [|m ms IH]; intros state; simpl.
  - intros [= ->]. by rewrite app_nil_r.
  - destruct (executeMove state (from m) (to m)) as [s1|] eqn:He; simpl; [|done].
    intros Hrun. apply IH in Hrun. rewrite Hrun.
    apply executeMove_Ok in He as [Hv ->]. rewrite moved_moves by done.
    destruct m. by rewrite <- app_assoc.
Qed.

Lemma validMove_vials s1 s2 m :
  vials s1 = vials s2 → validMove s1 m = validMove s2 m.
Proof. intros Hv. unfold validMove. by rewrite (isValidMove_vials s1 s2). Qed.

Lemma moved_vials s1 s2 m :
  vials s1 = vials s2 → validMove s1 m = true →
  vials (moved s1 m) = vials (moved s2 m).
Proof.
  intros Hvs Hv1. assert (validMove s2 m = true) as Hv2
    by (by rewrite <- (validMove_vials s1 s2)).
  pose proof (executeMove_moved _ _ Hv1) as He1.
  pose proof (executeMove_moved _ _ Hv2) as He2.
  apply validMove_true in Hv1, Hv2.
  destruct (isValidMove_true _ _ _ Hv1) as (source & dest & Hs & Hd & _).
  destruct (executeMove_valid _ _ _ _ _ Hv1 Hs Hd) as (c & n & Ht & He1').
  rewrite Hvs in Hs, Hd.
  destruct (executeMove_valid _ _ _ _ _ Hv2 Hs Hd) as (c' & n' & Ht' & He2').
  rewrite He1 in He1'. rewrite He2 in He2'.
  injection He1' as ->. injection He2' as ->. simpl.
  rewrite Hvs. congruence.
Qed.

Lemma isSolved_vials s1 s2 strictMode :
  vials s1 = vials s2 → isSolved s1 strictMode = isSolved s2 strictMode.
Proof. unfold isSolved. by intros ->. Qed.

Lemma toString_vials s1 s2 : vials s1 = vials s2 → toString s1 = toString s2.
Proof. unfold toString. by intros ->. Qed.

Lemma validMove_in_range state m :
  validMove state m = true →
  (from m < length (vials state))%nat ∧ (to m < length (vials state))%nat.
Proof.
  intros Hv. apply validMove_true, isValidMove_true in Hv
    as (source & dest & Hs & Hd & _).
  split; by eapply lookup_lt_Some.
Qed.

Lemma elem_of_successors state s' :
  s' ∈ successors state ↔ ∃ m, validMove state m = true ∧ s' = moved state m.
Proof.
  unfold successors. rewrite list_elem_of_fmap. split.
  - intros (m & -> & Hm). apply list_elem_of_In, filter_In in Hm as [_ Hm]. eauto.
  - intros (m & Hv & ->). exists m. split; [done|].
    apply list_elem_of_In, filter_In. split; [|done].
    apply list_elem_of_In. destruct (validMove_in_range _ _ Hv). destruct m.
    by apply all_pairs_complete.
Qed.

(** ** States the search can reach *)

Section ReachFacts.
Context (initialVials : list Vial).

Lemma Reach_initial : Reach initialVials (new_GameState initialVials []).
Proof. by exists []. Qed.

Lemma Reach_moves s :
  Reach initialVials s → applyMoves (new_GameState initialVials []) (moves s) = Ok s.
Proof. intros [ms Hms]. by rewrite (applyMoves_moves _ _ _ Hms). Qed.

Lemma Reach_moved s m : Reach initialVials s → validMove s m = true → Reach initialVials (moved s m).
Proof.
  intros [ms Hms] Hv. exists (ms ++ [m]).
  rewrite applyMoves_app, Hms. simpl. by rewrite executeMove_moved.
Qed.

Lemma Reach_no_moves s : Reach initialVials s → moves s = [] → s = new_GameState initialVials [].
Proof.
  intros Hr Hm. apply Reach_moves in Hr. rewrite Hm in Hr. simpl in Hr. congruence.
Qed.

Lemma Reach_last_move s :
  Reach initialVials s → moves s ≠ [] →
  ∃ p m, Reach initialVials p ∧ validMove p m = true ∧ s = moved p m ∧ moves s = moves p ++ [m].
Proof.
  intros Hr Hne. apply Reach_moves in Hr.
  destruct (exists_last Hne) as (ms0 & m0 & Hms). rewrite Hms in Hr.
  rewrite applyMoves_app in Hr.
  destruct (applyMoves (new_GameState initialVials []) ms0) as [p|] eqn:Hp; [|done].
  simpl in Hr.
  destruct (executeMove p (from m0) (to m0)) as [s1|] eqn:He; simpl in Hr; [|done].
  injection Hr as ->. apply executeMove_Ok in He as [Hv ->]. destruct m0 as [f t].
  exists p, {| from := f; to := t |}. split; [by exists ms0|]. split; [done|].
  split; [done|]. by rewrite moved_moves, (applyMoves_moves _ _ _ Hp).
Qed.
End ReachFacts.

(** ** The [find] of [processState] *)

Lemma findSolution_found strictMode candidates visited queue s visited' queue' :
  findSolution strictMode candidates visited queue = (Some s, visited', queue') →
  s ∈ candidates ∧ isSolved s strictMode = true.
Proof.
  revert visited queue. induction candidates as [|c rest IH]; intros visited queue; simpl.
  - done.
  - destruct (isSolved c strictMode) eqn:Hc.
    + intros [= <- _ _]. split; [left|done].
    + intros Hf. apply IH in Hf as [? ?]. split; [by right|done].
Qed.

Lemma findSolution_none strictMode candidates visited queue visited' queue' :
  findSolution strictMode candidates visited queue = (None, visited', queue') →
  queue' = queue ++ candidates ∧
  (∀ k, k ∈ visited' ↔ k ∈ visited ∨ ∃ c, c ∈ candidates ∧ k = toString c) ∧
  ∀ c, c ∈ candidates → isSolved c strictMode = false.
Proof.
  revert visited queue. induction candidates as [|c rest IH]; intros visited queue; simpl.
  - intros [= <- <-]. split; [by rewrite app_nil_r|]. split.
    + intros k. split; [by left|]. intros [?|(c & Hc & _)]; [done|]. by apply elem_of_nil in Hc.
    + intros c Hc. by apply elem_of_nil in Hc.
  - destruct (isSolved c strictMode) eqn:Hc; [done|].
    intros Hf. apply IH in Hf as (-> & Hvis & Huns). split; [by rewrite <- app_assoc|]. split.
    + intros k. rewrite Hvis, elem_of_union, elem_of_singleton. split.
      * intros [[->|?]|(c' & Hc' & ->)]; [right; exists c; split; [left|done]|by left|].
        right. exists c'. split; [by right|done].
      * intros [?|(c' & Hc' & ->)]; [by left; right|].
        apply elem_of_cons in Hc' as [->|Hc']; [by left; left|]. right. eauto.
    + intros c' Hc'. apply elem_of_cons in Hc' as [->|Hc']; [done|by apply Huns].
Qed.

Lemma elem_of_unseen visited nextStates s :
  s ∈ unseen visited nextStates ↔ s ∈ nextStates ∧ toString s ∉ visited.
Proof.
  unfold unseen. rewrite list_elem_of_In, filter_In, <- list_elem_of_In.
  rewrite negb_true_iff, bool_decide_eq_false. done.
Qed.

(** ** What the search hands back is a solved state it reached *)

Lemma searchRaw_sound initialVials fuel strictMode queue visited explored s n :
  Forall (Reach initialVials) queue →
  searchRaw fuel strictMode queue visited explored = Some (Some s, n) →
  Reach initialVials s ∧ isSolved s strictMode = true.
Proof.
  revert queue visited explored.
  induction fuel as [|fuel IH]; intros queue visited explored Hq; simpl; [done|].
  destruct queue as [|currentState queue]; [done|].
  destruct (explored <? MAX_SEARCH_STATES)%nat; [|done].
  apply Forall_cons in Hq as [Hcur Hq].
  destruct (findSolution strictMode (unseen visited (successors currentState))
              visited queue) as [[[s'|] visited'] queue'] eqn:Hfind.
  - intros [= -> <-]. apply findSolution_found in Hfind as [Hin Hs]. split; [|done].
    apply elem_of_unseen in Hin as [Hin _].
    apply elem_of_successors in Hin as (m & Hv & ->). by apply Reach_moved.
  - apply findSolution_none in Hfind as (-> & _ & _). apply IH.
    apply Forall_app. split; [done|]. apply Forall_forall. intros c Hc.
    apply elem_of_unseen in Hc as [Hc _].
    apply elem_of_successors in Hc as (m & Hv & ->). by apply Reach_moved.
Qed.

Lemma solvePuzzleFuel_raw fuel initialVials strictMode :
  (MAX_SEARCH_STATES < fuel)%nat →
  ∃ found dequeued,
    solvePuzzleFuel fuel initialVials strictMode
      = Some (annotated initialVials found, dequeued) ∧
    solveRaw initialVials strictMode = Some (moves <$> found) ∧
    (dequeued ≤ MAX_SEARCH_STATES)%nat ∧
    (∀ s, found = Some s →
          Reach initialVials s ∧ isSolved s strictMode = true) ∧
    ∀ fuel', (MAX_SEARCH_STATES < fuel')%nat →
      solvePuzzleFuel fuel' initialVials strictMode
        = Some (annotated initialVials found, dequeued).
Proof.
  intros Hfuel. unfold solvePuzzleFuel, solveRaw.
  destruct (isSolved (new_GameState initialVials []) strictMode) eqn:Hinit.
  - exists (Some (new_GameState initialVials [])), 0%nat.
    split_and!; [done|done|lia| |done].
    intros s [= <-]. split; [apply Reach_initial|done].
  - set (s0 := new_GameState initialVials []).
    destruct (searchRaw_enough_fuel (S MAX_SEARCH_STATES) strictMode [s0]
                {[toString s0]} 0%nat) as (found & n & Hrun & _ & Hn & Hany); [lia|].
    exists found, n. rewrite searchLoop_raw, (Hany fuel), Hrun by lia.
    split_and!; [done|done|lia| |].
    + intros s ->. eapply searchRaw_sound; [|exact Hrun].
      apply Forall_singleton, Reach_initial.
    + intros fuel' Hfuel'. by rewrite searchLoop_raw, (Hany fuel') by lia.
Qed.

(** C10. [solvePuzzle] terminates: whatever the configuration and the mode,
    every run of the loop with more than [MAX_SEARCH_STATES] units of fuel
    ends with the same answer, after at most [MAX_SEARCH_STATES] states were
    taken off the queue.  When the search found no solved state the answer
    is [null]; a non-null answer is the annotation of the path of a solved
    state that the search reached.  The loop itself answers [null] as soon
    as its guard fails, that is when the queue is empty or the budget is
    used up. *)
Theorem solvePuzzle_terminates_within_budget initialVials strictMode :
  ∃ answer dequeued found,
    (∀ fuel, (MAX_SEARCH_STATES < fuel)%nat →
       solvePuzzleFuel fuel initialVials strictMode = Some (answer, dequeued)) ∧
    solvePuzzle initialVials strictMode = Some answer ∧
    (dequeued ≤ MAX_SEARCH_STATES)%nat ∧
    solveRaw initialVials strictMode = Some found ∧
    match found with
    | None => answer = Ok None
    | Some raw =>
        (answer = enriched ← enrichMoves raw initialVials; Ok (Some enriched)) ∧
        ∃ final,
          applyMoves (new_GameState initialVials []) raw = Ok final ∧
          isSolved final strictMode = true
    end ∧
    ∀ fuel queue visited statesExplored,
      queue = [] ∨ (MAX_SEARCH_STATES ≤ statesExplored)%nat →
      searchLoop (S fuel) initialVials strictMode queue visited statesExplored
        = Some (Ok None, statesExplored).
Proof.
  destruct (solvePuzzleFuel_raw (S MAX_SEARCH_STATES) initialVials strictMode)
    as (found & n & Hrun & Hraw & Hn & Hfound & Hany); [lia|].
  exists (annotated initialVials found), n, (moves <$> found).
  split_and!; [done| |done|done| |].
  - unfold solvePuzzle. by rewrite Hrun.
  - destruct found as [s|]; simpl; [|done]. split; [done|].
    destruct (Hfound s eq_refl) as [Hr Hs]. exists s. split; [|done].
    by apply Reach_moves.
  - intros fuel queue visited explored [->|Hge]; simpl; [done|].
    destruct queue; [done|].
    destruct (Nat.ltb_spec explored MAX_SEARCH_STATES); [lia|done].
Qed.

(** ** Color totals *)

Lemma getTotalColorCounts_concat vs :
  getTotalColorCounts vs = foldl countColor ∅ (concat vs).
Proof.
  unfold getTotalColorCounts. fold countColor.
  change (λ counts vial, foldl (λ vialCounts color, countColor vialCounts color) counts vial)
    with (λ counts vial, foldl countColor counts vial).
  generalize (∅ : gmap string Tally).
  induction vs as [|v vs IH]; intros m; simpl; [done|].
  by rewrite foldl_app, IH.
Qed.

Lemma inherited_proto : JsObject.inherited "__proto__" = true.
Proof. reflexivity. Qed.

Lemma foldl_countColor_lookup l c :
  foldl countColor ∅ l !! c
  = tallyOf c (length (List.filter (λ color, String.eqb color c) l)).
Proof.
  induction l as [|x l IH] using rev_ind; [done|].
  rewrite foldl_app, List.filter_app, length_app. simpl.
  unfold countColor at 1, JsObject.set.
  destruct (String.eqb_spec x c) as [->|Hne]; simpl.
  - unfold tallyOf. rewrite Nat.add_1_r. simpl.
    destruct (String.eqb_spec c "__proto__") as [->|Hproto].
    { rewrite IH. unfold tallyOf. simpl. by destruct (_ =? 0)%nat. }
    rewrite lookup_insert_eq. f_equal. unfold JsObject.get.
    rewrite IH. unfold tallyOf.
    destruct (String.eqb_spec c "__proto__"); [done|].
    destruct (length _) as [|k]; simpl.
    + by destruct (JsObject.inherited c).
    + destruct (JsObject.inherited c); simpl; [done|]. do 2 f_equal. lia.
  - rewrite Nat.add_0_r, <- IH.
    destruct (String.eqb_spec x "__proto__"); [done|]. by rewrite lookup_insert_ne.
Qed.

Lemma getTotalColorCounts_lookup vs c :
  getTotalColorCounts vs !! c = tallyOf c (totalCount c vs).
Proof. by rewrite getTotalColorCounts_concat, foldl_countColor_lookup. Qed.

(** What a read of the table gives: for an inherited name a value that is
    no number, whatever the vials hold; for any other name its count. *)
Lemma getTotalColorCounts_get vs c :
  JsObject.get (getTotalColorCounts vs) c =
    if JsObject.inherited c then Some NotNumeric
    else if (totalCount c vs =? 0)%nat then None
    else Some (Count (totalCount c vs)).
Proof.
  unfold JsObject.get. rewrite getTotalColorCounts_lookup. unfold tallyOf.
  destruct (totalCount c vs =? 0)%nat; [done|].
  destruct (String.eqb_spec c "__proto__") as [->|_]; [done|].
  by destruct (JsObject.inherited c).
Qed.

Lemma totalCount_pos c vs vial :
  vial ∈ vs → c ∈ vial → (0 < totalCount c vs)%nat.
Proof.
  intros Hv Hc. unfold totalCount.
  assert (c ∈ List.filter (λ color, String.eqb color c) (concat vs)) as Hin.
  { apply list_elem_of_In, filter_In. split; [|apply String.eqb_refl].
    apply in_concat. exists vial. by rewrite <- !list_elem_of_In. }
  destruct (List.filter _ _); [by apply elem_of_nil in Hin|simpl; lia].
Qed.

(** ** Monochrome vials *)

Lemma monochrome_true vial :
  monochrome vial = true ↔ ∀ x, x ∈ vial → head vial = Some x.
Proof.
  destruct vial as [|c0 vial]; simpl.
  - split; [|done]. intros _ x Hx. by apply elem_of_nil in Hx.
  - rewrite String.eqb_refl. simpl. rewrite forallb_forall. split.
    + intros Hall x Hx. apply elem_of_cons in Hx as [->|Hx]; [done|].
      apply list_elem_of_In, Hall in Hx. by apply String.eqb_eq in Hx as ->.
    + intros Hall x Hx. apply String.eqb_eq.
      assert (Some c0 = Some x) as [= ->]; [|done].
      apply Hall. right. by apply list_elem_of_In.
Qed.

(** ** The uniqueness pass *)

Lemma hasUniqueColors_spec l (m : gmap string nat) :
  Forall (λ p : list string * nat, p.1 ≠ []) l →
  NoDup (l.*2) →
  (fst (hasUniqueColors l m) = true ↔
     (∀ v i c, (v, i) ∈ l → head v = Some c → m !! c = None) ∧
     (∀ v1 i1 v2 i2, (v1, i1) ∈ l → (v2, i2) ∈ l → head v1 = head v2 → i1 = i2)) ∧
  (fst (hasUniqueColors l m) = true →
     ∀ c i, snd (hasUniqueColors l m) !! c = Some i ↔
            m !! c = Some i ∨ ∃ v, (v, i) ∈ l ∧ head v = Some c).
Proof.
  revert m. induction l as [|[v i] l IH]; intros m Hne Hnd.
  { simpl. split.
    - split; [|done]. intros _. split; intros *; intros Hin; by apply elem_of_nil in Hin.
    - intros _ c i. split; [by left|]. intros [?|(v & Hin & _)]; [done|].
      by apply elem_of_nil in Hin. }
  apply Forall_cons in Hne as [Hv Hne]. simpl in Hv.
  rewrite fmap_cons in Hnd. apply NoDup_cons in Hnd as [Hi Hnd]. simpl in Hi.
  destruct v as [|c0 v]; [done|]. simpl.
  destruct (m !! c0) as [j|] eqn:Hm0.
  { rewrite bool_decide_eq_true_2 by eauto. simpl. split; [|done].
    split; [done|]. intros [Hfree _].
    specialize (Hfree (c0 :: v) i c0). rewrite Hm0 in Hfree.
    discriminate Hfree; [left|done]. }
  rewrite bool_decide_eq_false_2 by (intros [? ?]; done).
  destruct (IH (<[c0 := i]> m) Hne Hnd) as [IH1 IH2]. split.
  - rewrite IH1. split.
    + intros [Hfree Huniq]. split.
      * intros v' i' c Hin Hh. apply elem_of_cons in Hin as [[= -> ->]|Hin].
        -- simpl in Hh. by injection Hh as <-.
        -- specialize (Hfree _ _ _ Hin Hh).
           apply lookup_insert_None in Hfree as [? _]. done.
      * intros v1 i1 v2 i2 H1 H2 Hh.
        apply elem_of_cons in H1 as [[= -> ->]|H1];
          apply elem_of_cons in H2 as [[= -> ->]|H2]; [done| | |by eapply Huniq].
        -- symmetry in Hh. specialize (Hfree _ _ _ H2 Hh).
           by rewrite lookup_insert_eq in Hfree.
        -- specialize (Hfree _ _ _ H1 Hh). by rewrite lookup_insert_eq in Hfree.
    + intros [Hfree Huniq]. split.
      * intros v' i' c Hin Hh. apply lookup_insert_None. split.
        -- apply (Hfree v' i' c); [by right|done].
        -- intros <-. assert (i' = i) as ->.
           { apply (Huniq v' i' (c0 :: v) i); [by right|by left|done]. }
           apply Hi. apply list_elem_of_fmap. by exists (v', i).
      * intros v1 i1 v2 i2 H1 H2. apply Huniq; by right.
  - intros Ht c i'. rewrite (IH2 Ht c i'). split.
    + intros [Hins|(v' & Hin & Hh)].
      * apply lookup_insert_Some in Hins as [[<- <-]|[_ ?]]; [|by left].
        right. exists (c0 :: v). split; [left|done].
      * right. exists v'. split; [by right|done].
    + intros [Hm|(v' & Hin & Hh)].
      * left. apply lookup_insert_Some. right. split; [|done]. intros <-. congruence.
      * apply elem_of_cons in Hin as [[= -> ->]|Hin].
        -- left. simpl in Hh. injection Hh as <-. apply lookup_insert_eq.
        -- right. eauto.
Qed.

Lemma elem_of_nonEmptyVials (vs : list (list string)) v i :
  (v, i) ∈ List.filter (λ p : list string * nat, (0 <? length (fst p))%nat)
                       (imap (λ index vial, (vial, index)) vs)
  ↔ vs !! i = Some v ∧ v ≠ [].
Proof.
  rewrite list_elem_of_In, filter_In, <- list_elem_of_In, elem_of_lookup_imap. simpl.
  rewrite Nat.ltb_lt. split.
  - intros [(j & y & [= -> ->] & Hl) Hlen]. split; [done|]. intros ->. simpl in Hlen. lia.
  - intros [Hl Hne]. split; [by exists i, v|]. destruct v; [done|simpl; lia].
Qed.

Lemma nonEmptyVials_wf (vs : list (list string)) :
  let l := List.filter (λ p : list string * nat, (0 <? length (fst p))%nat)
                       (imap (λ index vial, (vial, index)) vs) in
  Forall (λ p : list string * nat, p.1 ≠ []) l ∧ NoDup (l.*2).
Proof.
  intros l. split.
  - apply Forall_forall. intros [v i] Hin. by apply elem_of_nonEmptyVials in Hin as [_ ?].
  - subst l. assert (∀ k, NoDup (imap (λ index (vial : list string), (vial, k + index)%nat) vs).*2) as Hk.
    { induction vs as [|v vs IH]; intros k; simpl; [constructor|].
      constructor.
      - rewrite list_elem_of_fmap. intros ([v' j] & Hj & Hin).
        apply elem_of_lookup_imap in Hin as (j' & y & [= -> ->] & _). simpl in Hj. lia.
      - rewrite (imap_ext _ (λ index vial, (vial, S k + index)%nat)); [apply IH|].
        intros; simpl; f_equal; lia. }
    specialize (Hk 0%nat). simpl in Hk.
    revert Hk. generalize (imap (λ index (vial : list string), (vial, index)) vs).
    intros l Hnd. induction l as [|p l IH]; simpl; [constructor|].
    rewrite fmap_cons in Hnd. apply NoDup_cons in Hnd as [Hp Hnd].
    destruct (0 <? length p.1)%nat; [|by apply IH].
    rewrite fmap_cons. constructor; [|by apply IH].
    rewrite list_elem_of_fmap. intros (q & Hq & Hin). apply Hp.
    apply list_elem_of_fmap. exists q. split; [done|].
    apply list_elem_of_In, filter_In in Hin as [Hin _]. by apply list_elem_of_In.
Qed.

Lemma forallb_map_to_list (m : gmap string nat) (P : string * nat → bool) :
  forallb P (map_to_list m) = true ↔ ∀ c i, m !! c = Some i → P (c, i) = true.
Proof.
  rewrite forallb_forall. split.
  - intros H c i Hm. apply H, list_elem_of_In, elem_of_map_to_list. done.
  - intros H [c i] Hin. apply H, elem_of_map_to_list, list_elem_of_In. done.
Qed.

(** The three checks of strict mode, on the vials themselves. *)
Lemma isSolved_strict_checks state :
  isSolved state true = true ↔
    (∀ vial x, vial ∈ vials state → x ∈ vial → head vial = Some x) ∧
    (∀ i1 v1 i2 v2 c, vials state !! i1 = Some v1 → vials state !! i2 = Some v2 →
       head v1 = Some c → head v2 = Some c → i1 = i2) ∧
    (∀ i v c, vials state !! i = Some v → head v = Some c →
       JsObject.inherited c = false ∧
       Z.of_nat (length v)
       = Z.min (Z.of_nat (totalCount c (vials state))) MAX_VIAL_CAPACITY).
Proof.
  unfold isSolved.
  set (l := List.filter _ _).
  destruct (nonEmptyVials_wf (vials state)) as [Hne Hnd]. fold l in Hne, Hnd.
  destruct (hasUniqueColors_spec l ∅ Hne Hnd) as [Hu1 Hu2].
  assert (forallb monochrome (vials state) = true ↔
          ∀ vial x, vial ∈ vials state → x ∈ vial → head vial = Some x) as Hmono.
  { rewrite forallb_forall. split.
    - intros H vial x Hv. apply monochrome_true, H. by apply list_elem_of_In.
    - intros H vial Hv. apply monochrome_true. intros x. apply H. by apply list_elem_of_In. }
  destruct (forallb monochrome (vials state)); simpl.
  2:{ split; [done|]. intros [H _]. by apply Hmono in H. }
  destruct (hasUniqueColors l ∅) as [unique colorToVial] eqn:Hh. simpl in Hu1, Hu2.
  assert (unique = true ↔
          ∀ i1 v1 i2 v2 c, vials state !! i1 = Some v1 → vials state !! i2 = Some v2 →
            head v1 = Some c → head v2 = Some c → i1 = i2) as Huniq.
  { rewrite Hu1. split.
    - intros [_ H] i1 v1 i2 v2 c H1 H2 Hc1 Hc2.
      apply (H v1 i1 v2 i2); [| |congruence]; apply elem_of_nonEmptyVials;
        (split; [done|intros ->; done]).
    - intros H. split; [intros; apply lookup_empty|].
      intros v1 i1 v2 i2 H1 H2 Hhd.
      apply elem_of_nonEmptyVials in H1 as [H1 N1], H2 as [H2 N2].
      destruct v1 as [|c v1]; [done|]. by apply (H i1 (c :: v1) i2 v2 c). }
  destruct unique; simpl.
  2:{ split; [done|]. intros (_ & H & _). by apply Huniq in H. }
  specialize (Hu2 eq_refl).
  rewrite forallb_map_to_list. split.
  - intros Hfill. split; [by apply Hmono|]. split; [by apply Huniq|].
    intros i v c Hv Hc.
    assert (colorToVial !! c = Some i) as Hm.
    { apply Hu2. right. exists v. split; [|done].
      apply elem_of_nonEmptyVials. split; [done|]. intros ->. done. }
    specialize (Hfill c i Hm). simpl in Hfill. rewrite Hv in Hfill.
    rewrite getTotalColorCounts_get in Hfill.
    destruct (JsObject.inherited c); [done|].
    destruct (totalCount c (vials state) =? 0)%nat; [done|]. by apply Z.eqb_eq in Hfill.
  - intros (_ & _ & Hfill) c i Hm. simpl.
    apply Hu2 in Hm as [Hm|(v & Hin & Hc)]; [by rewrite lookup_empty in Hm|].
    apply elem_of_nonEmptyVials in Hin as [Hv Hnev]. rewrite Hv.
    rewrite getTotalColorCounts_get.
    assert (0 < totalCount c (vials state))%nat as Hpos.
    { apply (totalCount_pos c _ v); [by eapply list_elem_of_lookup_2|].
      destruct v as [|c' v]; [done|]. injection Hc as ->. left. }
    destruct (Hfill i v c Hv Hc) as [-> Hlen].
    destruct (Nat.eqb_spec (totalCount c (vials state)) 0); [lia|].
    by apply Z.eqb_eq.
Qed.

Lemma inherited_false c :
  JsObject.inherited c = false ↔ c ∉ objectPrototypeNames.
Proof. unfold JsObject.inherited. by rewrite bool_decide_eq_false. Qed.




(** ** The string key on plain color names *)

Lemma hasChar_append ch s1 s2 :
  hasChar ch (String.append s1 s2) = hasChar ch s1 || hasChar ch s2.
Proof.
  induction s1 as [|a s1 IH]; simpl; [done|]. by rewrite IH, orb_assoc.
Qed.

Lemma append_empty s1 s2 : String.append s1 s2 = EmptyString → s1 = EmptyString.
Proof. by destruct s1. Qed.

Lemma append_split ch x x' r r' :
  hasChar ch x = false → hasChar ch x' = false →
  String.append x (String ch r) = String.append x' (String ch r') →
  x = x' ∧ r = r'.
Proof.
  revert x'. induction x as [|a x IH]; intros [|a' x']; simpl.
  - intros _ _ [= ->]. done.
  - intros _ Hx' [= <- _]. by rewrite Ascii.eqb_refl in Hx'.
  - intros Hx _ [= -> _]. by rewrite Ascii.eqb_refl in Hx.
  - intros Hx Hx' [= -> Heq].
    apply orb_false_iff in Hx as [_ Hx], Hx' as [_ Hx'].
    destruct (IH x' Hx Hx' Heq) as [-> ->]. done.
Qed.

Lemma join_cons_cons sep x y l :
  Js.join sep (x :: y :: l) = String.append x (String.append sep (Js.join sep (y :: l))).
Proof. reflexivity. Qed.

Lemma join_hasChar ch sepch l :
  ch ≠ sepch →
  Forall (λ x, hasChar ch x = false) l →
  hasChar ch (Js.join (String sepch EmptyString) l) = false.
Proof.
  intros Hne. induction l as [|x [|y l] IH]; intros Hall.
  - done.
  - by apply Forall_cons in Hall as [? _].
  - apply Forall_cons in Hall as [Hx Hall].
    rewrite join_cons_cons, !hasChar_append, Hx, IH by done. simpl.
    destruct (Ascii.eqb_spec sepch ch); [congruence|done].
Qed.

Lemma join_nonempty sepch x l :
  x ≠ EmptyString → Js.join (String sepch EmptyString) (x :: l) ≠ EmptyString.
Proof.
  intros Hx. destruct l as [|y l]; [done|]. rewrite join_cons_cons.
  intros H. by apply append_empty in H.
Qed.

(** Joining with a separator that occurs in none of the pieces can be
    undone, provided the number of pieces is known or no piece is empty. *)
Lemma join_inj_nonempty sepch l l' :
  Forall (λ x, x ≠ EmptyString ∧ hasChar sepch x = false) l →
  Forall (λ x, x ≠ EmptyString ∧ hasChar sepch x = false) l' →
  Js.join (String sepch EmptyString) l = Js.join (String sepch EmptyString) l' →
  l = l'.
Proof.
  revert l'. induction l as [|x l IH]; intros l' Hl Hl' Heq.
  - destruct l' as [|x' l']; [done|].
    apply Forall_cons in Hl' as [[Hx' _] _].
    symmetry in Heq. by apply join_nonempty in Heq.
  - apply Forall_cons in Hl as [[Hx Hxc] Hl].
    destruct l' as [|x' l']; [by apply join_nonempty in Heq|].
    apply Forall_cons in Hl' as [[Hx' Hxc'] Hl'].
    destruct l as [|y l], l' as [|y' l'].
    + simpl in Heq. by subst.
    + rewrite join_cons_cons in Heq.
      change (Js.join (String sepch EmptyString) [x]) with x in Heq. subst x.
      rewrite hasChar_append in Hxc. simpl in Hxc.
      rewrite Ascii.eqb_refl, orb_true_r in Hxc. done.
    + rewrite join_cons_cons in Heq.
      change (Js.join (String sepch EmptyString) [x']) with x' in Heq. subst x'.
      rewrite hasChar_append in Hxc'. simpl in Hxc'.
      rewrite Ascii.eqb_refl, orb_true_r in Hxc'. done.
    + rewrite !join_cons_cons in Heq. simpl in Heq.
      apply append_split in Heq as [-> Heq]; [|done..].
      f_equal. by apply IH.
Qed.

Lemma join_inj_length sepch l l' :
  Forall (λ x, hasChar sepch x = false) l →
  Forall (λ x, hasChar sepch x = false) l' →
  length l = length l' →
  Js.join (String sepch EmptyString) l = Js.join (String sepch EmptyString) l' →
  l = l'.
Proof.
  revert l'. induction l as [|x l IH]; intros [|x' l'] Hl Hl' Hlen Heq; try done.
  apply Forall_cons in Hl as [Hx Hl], Hl' as [Hx' Hl'].
  destruct l as [|y l], l' as [|y' l']; try done.
  - simpl in Heq. by subst.
  - rewrite !join_cons_cons in Heq. simpl in Heq.
    apply append_split in Heq as [-> Heq]; [|done..].
    f_equal. apply IH; try done. simpl in *. lia.
Qed.

Lemma plainColor_true c :
  plainColor c = true ↔
  c ≠ EmptyString ∧ hasChar "," c = false ∧ hasChar "|" c = false.
Proof.
  unfold plainColor. rewrite !andb_true_iff, !negb_true_iff.
  destruct (String.eqb_spec c ""); simpl; split.
  - intros [[? ?] ?]. done.
  - intros [? _]. done.
  - intros [[_ ?] ?]. done.
  - intros (_ & ? & ?). done.
Qed.

Lemma plainColors_true vs :
  plainColors vs = true ↔ Forall (Forall (λ c, plainColor c = true)) vs.
Proof.
  unfold plainColors. rewrite forallb_forall, Forall_forall.
  split; intros H v Hv.
  - apply Forall_forall. intros c Hc.
    apply list_elem_of_In, H in Hv. rewrite forallb_forall in Hv.
    by apply Hv, list_elem_of_In.
  - apply forallb_forall. intros c Hc.
    apply list_elem_of_In, H in Hv. rewrite Forall_forall in Hv.
    by apply Hv, list_elem_of_In.
Qed.

(** The parts of [plainColor] that a goal on the entries of a vial asks for. *)
Ltac plain_parts H :=
  eapply Forall_impl; [exact H|];
  let c := fresh "c" in let Hc := fresh "Hc" in
  intros c Hc; apply plainColor_true in Hc; tauto.

Lemma toString_inj s1 s2 :
  plainColors (vials s1) = true → plainColors (vials s2) = true →
  length (vials s1) = length (vials s2) →
  toString s1 = toString s2 → vials s1 = vials s2.
Proof.
  rewrite !plainColors_true. unfold toString.
  generalize (vials s1) (vials s2). clear s1 s2.
  intros vs1 vs2 H1 H2 Hlen Heq.
  apply join_inj_length in Heq; [| | |by rewrite !length_map].
  - revert vs2 H2 Hlen Heq. induction H1 as [|v1 vs1 Hv1 H1 IH]; intros [|v2 vs2] H2 Hlen Heq;
      try done.
    apply Forall_cons in H2 as [Hv2 H2]. simpl in Heq. injection Heq as Hv Heq.
    f_equal; [|apply IH; try done; simpl in Hlen; lia].
    apply (join_inj_nonempty ","); [| |done].
    + plain_parts Hv1.
    + plain_parts Hv2.
  - apply Forall_fmap, Forall_forall. intros v Hv. simpl.
    apply join_hasChar; [done|]. rewrite Forall_forall in H1.
    plain_parts (H1 v Hv).
  - apply Forall_fmap, Forall_forall. intros v Hv. simpl.
    apply join_hasChar; [done|]. rewrite Forall_forall in H2.
    plain_parts (H2 v Hv).
Qed.

(** ** A pour brings in no new color name and keeps the number of vials *)

Lemma slice_Forall {A} (P : A → Prop) (l : list A) a b :
  Forall P l → Forall P (Js.slice l a b).
Proof. intros H. unfold Js.slice. by apply Forall_take, Forall_drop. Qed.

Lemma pouredVials_Forall (P : string → Prop) vs from to c u :
  P c → Forall (Forall P) vs → Forall (Forall P) (pouredVials vs from to c u).
Proof.
  intros Hc Hvs. apply Forall_forall. intros v Hv.
  apply elem_of_lookup_imap in Hv as (i & v0 & -> & Hi).
  assert (Forall P v0) as Hv0.
  { rewrite Forall_forall in Hvs. by eapply Hvs, list_elem_of_lookup_2. }
  destruct (i =? from)%nat; [by apply slice_Forall|].
  destruct (i =? to)%nat; [|done].
  apply Forall_app. split; [done|]. rewrite fill_replicate.
  by apply Forall_replicate.
Qed.

Lemma moved_shape state m :
  validMove state m = true →
  length (vials (moved state m)) = length (vials state) ∧
  ∀ P : string → Prop,
    Forall (Forall P) (vials state) → Forall (Forall P) (vials (moved state m)).
Proof.
  intros Hv. pose proof (executeMove_moved _ _ Hv) as He.
  apply validMove_true in Hv.
  destruct (isValidMove_true _ _ _ Hv) as (source & dest & Hs & Hd & _).
  destruct (executeMove_valid _ _ _ _ _ Hv Hs Hd) as (c & n & Ht & He').
  rewrite He in He'. injection He' as ->. simpl. split; [apply pouredVials_length|].
  intros P HP. apply pouredVials_Forall; [|done].
  apply getTopColorSequence_bounds in Ht as [Hl _].
  apply last_Some in Hl as [l' ->].
  assert (Forall P (l' ++ [c])) as Hsrc.
  { rewrite Forall_forall in HP. apply HP. exact (list_elem_of_lookup_2 _ _ _ Hs). }
  apply Forall_app in Hsrc as [_ Hsrc]. by inversion Hsrc.
Qed.

Lemma Reach_shape initialVials s :
  Reach initialVials s →
  length (vials s) = length initialVials ∧
  ∀ P : string → Prop,
    Forall (Forall P) initialVials → Forall (Forall P) (vials s).
Proof.
  intros [ms Hms]. revert s Hms. induction ms as [|m ms IH] using rev_ind; intros s Hms.
  - simpl in Hms. injection Hms as <-. done.
  - rewrite applyMoves_app in Hms.
    destruct (applyMoves (new_GameState initialVials []) ms) as [p|]; [|done].
    simpl in Hms.
    destruct (executeMove p (from m) (to m)) as [s1|] eqn:He; simpl in Hms; [|done].
    injection Hms as ->. apply executeMove_Ok in He as [Hv ->].
    destruct (IH p eq_refl) as [Hlen HP].
    destruct (moved_shape _ _ Hv) as [Hlen' HP']. split; [congruence|].
    intros P H. by apply HP', HP.
Qed.

Lemma Reach_toString_inj initialVials s1 s2 :
  plainColors initialVials = true →
  Reach initialVials s1 → Reach initialVials s2 →
  toString s1 = toString s2 → vials s1 = vials s2.
Proof.
  intros Hp H1 H2. apply plainColors_true in Hp.
  destruct (Reach_shape _ _ H1) as [L1 P1], (Reach_shape _ _ H2) as [L2 P2].
  apply toString_inj; [by apply plainColors_true, P1|by apply plainColors_true, P2|congruence].
Qed.

(** ** The annotation is never longer than the raw path *)

Lemma enrichStep_length acc m acc' :
  enrichStep acc m = Ok acc' → (length acc'.1 ≤ S (length acc.1))%nat.
Proof.
  destruct acc as [ms vs]. unfold enrichStep.
  destruct (vs !! from m) as [source|]; simpl; [|done].
  destruct (length source =? 0)%nat; [intros [= <-]; simpl; lia|].
  destruct (last source) as [c|]; [|intros [= <-]; simpl; lia].
  destruct (vs !! to m) as [dest|]; simpl; [|done].
  destruct (Js.mapi_res _ vs) as [vs'|]; simpl; [|done].
  intros [= <-]. simpl. rewrite length_app. simpl. lia.
Qed.

Lemma reduce_enrichStep_length ms acc acc' :
  Js.reduce_res enrichStep ms acc = Ok acc' →
  (length acc'.1 ≤ length acc.1 + length ms)%nat.
Proof.
  revert acc. induction ms as [|m ms IH]; intros acc; simpl.
  - intros [= <-]. lia.
  - destruct (enrichStep acc m) as [acc1|] eqn:Hstep; simpl; [|done].
    intros Hrun. apply IH in Hrun. apply enrichStep_length in Hstep. lia.
Qed.

Lemma enrichMoves_length ms initialVials annotation :
  enrichMoves ms initialVials = Ok annotation → (length annotation ≤ length ms)%nat.
Proof.
  unfold enrichMoves.
  destruct (Js.reduce_res enrichStep ms ([], initialVials)) as [acc|] eqn:Hrun; simpl; [|done].
  intros [= <-]. apply reduce_enrichStep_length in Hrun. simpl in Hrun. lia.
Qed.

(** ** The annotator, step by step *)

Lemma mapi_res_from_imap {A B} (f : nat → A → res B) (g : nat → A → B) i (l : list A) :
  (∀ j x, l !! j = Some x → f (i + j)%nat x = Ok (g (i + j)%nat x)) →
  Js.mapi_res_from f i l = Ok (imap (λ j, g (i + j)%nat) l).
Proof.
  revert i. induction l as [|x l IH]; intros i Hf; simpl; [done|].
  specialize (Hf 0%nat x eq_refl) as Hx. rewrite Nat.add_0_r in Hx. rewrite Hx. simpl.
  rewrite (IH (S i)).
  - simpl. rewrite Nat.add_0_r. do 2 f_equal. apply imap_ext. intros j y _. simpl.
    f_equal. lia.
  - intros j y Hj. specialize (Hf (S j) y Hj). by rewrite Nat.add_succ_r in Hf.
Qed.

Lemma mapi_res_from_throw {A B} (f : nat → A → res B) i (l : list A) j x e :
  l !! j = Some x → f (i + j)%nat x = Throw e →
  (∀ k y, (k < j)%nat → l !! k = Some y → ∃ z, f (i + k)%nat y = Ok z) →
  Js.mapi_res_from f i l = Throw e.
Proof.
  revert i j. induction l as [|a l IH]; intros i j Hj He Hbefore; [done|].
  destruct j as [|j]; simpl in *.
  - injection Hj as ->. rewrite Nat.add_0_r in He. by rewrite He.
  - destruct (Hbefore 0%nat a) as [z Hz]; [lia|done|].
    rewrite Nat.add_0_r in Hz. rewrite Hz. simpl.
    rewrite (IH (S i) j); [done|done| |].
    + by rewrite Nat.add_succ_comm.
    + intros k y Hk Hy. destruct (Hbefore (S k) y) as [z' Hz']; [lia|done|].
      exists z'. by rewrite Nat.add_succ_comm.
Qed.

(** One step of the annotator, case by case. *)
Lemma enrichStep_cases ms vs m :
  match vs !! from m with
  | None => enrichStep (ms, vs) m = Throw TypeError
  | Some [] => enrichStep (ms, vs) m = Ok (ms, vs)
  | Some source =>
      match last source, vs !! to m with
      | Some c, Some dest =>
          let u := Z.min (occurrences c source)
                         (MAX_VIAL_CAPACITY - Z.of_nat (length dest)) in
          if decide (from m ≠ to m ∧ u < 0)
          then enrichStep (ms, vs) m = Throw RangeError
          else enrichStep (ms, vs) m =
                 Ok (ms ++ [{| mfrom := from m; mto := to m; color := c; units := u |}],
                     enrichedVials vs (from m) (to m) c u)
      | _, _ => enrichStep (ms, vs) m = Throw TypeError
      end
  end.
Proof.
  unfold enrichStep. destruct (vs !! from m) as [source|] eqn:Hs; simpl; [|done].
  destruct source as [|x source]; [done|]. simpl length. simpl Nat.eqb. cbv iota.
  destruct (last (x :: source)) as [c|] eqn:Hl.
  2:{ by apply last_None in Hl. }
  destruct (vs !! to m) as [dest|] eqn:Hd; simpl; [|done].
  fold (occurrences c (reverse (x :: source))). rewrite occurrences_reverse.
  set (u := Z.min _ _).
  destruct (decide (from m ≠ to m ∧ u < 0)) as [[Hne Hneg]|Hok].
  - unfold Js.mapi_res.
    rewrite (mapi_res_from_throw _ 0 vs (to m) dest RangeError); [done|done| |].
    + simpl. destruct (Nat.eqb_spec (to m) (from m)); [congruence|].
      rewrite Nat.eqb_refl. unfold Js.Array.
      destruct (Z.ltb_spec u 0); [done|lia].
    + intros k y Hk _. simpl. destruct (k =? from m)%nat; [eauto|].
      destruct (Nat.eqb_spec k (to m)); [lia|eauto].
  - unfold Js.mapi_res.
    rewrite (mapi_res_from_imap _
               (λ index vial,
                  if (index =? from m)%nat then Js.slice vial 0 (- u)
                  else if (index =? to m)%nat then vial ++ replicate (Z.to_nat u) c
                  else vial)); [done|].
    intros j y Hj. simpl. destruct (Nat.eqb_spec j (from m)) as [->|Hjf]; [done|].
    destruct (Nat.eqb_spec j (to m)) as [->|Hjt]; [|done].
    unfold Js.Array. destruct (Z.ltb_spec u 0) as [Hneg|_].
    + exfalso. apply Hok. split; [congruence|done].
    + simpl. by rewrite fill_replicate, length_replicate.
Qed.

Lemma occurrences_top_pos source c :
  last source = Some c → 1 ≤ occurrences c source ≤ Z.of_nat (length source).
Proof.
  intros Hl. apply (getTopColorSequence_bounds source c).
  by rewrite getTopColorSequence_eq, Hl.
Qed.

Lemma enrichStep_Ok ms vs m ms' vs' :
  enrichStep (ms, vs) m = Ok (ms', vs') →
  length vs' = length vs ∧
  ((ms' = ms ∧ vs' = vs ∧ vs !! from m = Some []) ∨
   ∃ a, ms' = ms ++ [a] ∧ pairOfAnnotated a = pairOfMove m ∧
        units a ≤ MAX_VIAL_CAPACITY ∧
        ∃ source, vs !! from m = Some source ∧ last source = Some (color a)).
Proof.
  pose proof (enrichStep_cases ms vs m) as Hc.
  destruct (vs !! from m) as [[|x source]|] eqn:Hs.
  - rewrite Hc. intros [= <- <-]. split; [done|]. by left.
  - destruct (last (x :: source)) as [c|] eqn:Hl; [|by rewrite Hc].
    destruct (vs !! to m) as [dest|] eqn:Hd; [|by rewrite Hc].
    cbv zeta in Hc. destruct (decide _) as [?|_]; rewrite Hc; [done|].
    intros [= <- <-]. split; [apply length_imap|]. right. eexists. split; [done|].
    simpl. split; [done|]. split; [unfold MAX_VIAL_CAPACITY; lia|]. eauto.
  - by rewrite Hc.
Qed.

Lemma reduce_res_cons {A B} (f : B → A → res B) x l acc :
  Js.reduce_res f (x :: l) acc = f acc x ≫= λ acc', Js.reduce_res f l acc'.
Proof. reflexivity. Qed.

Lemma reduce_enrichStep_Ok ms acc vs acc' vs' :
  Js.reduce_res enrichStep ms (acc, vs) = Ok (acc', vs') →
  length vs' = length vs ∧
  ∃ new, acc' = acc ++ new ∧
         (pairOfAnnotated <$> new) `sublist_of` (pairOfMove <$> ms) ∧
         Forall (λ a, units a ≤ MAX_VIAL_CAPACITY) new.
Proof.
  revert acc vs. induction ms as [|m ms IH]; intros acc vs.
  - intros [= <- <-]. split; [done|]. exists []. by rewrite app_nil_r.
  - rewrite reduce_res_cons.
    destruct (enrichStep (acc, vs) m) as [[acc1 vs1]|] eqn:Hstep; [|done].
    intros Hrun.
    change (Js.reduce_res enrichStep ms (acc1, vs1) = Ok (acc', vs')) in Hrun. apply IH in Hrun as (Hlen & new & -> & Hsub & Hunits).
    apply enrichStep_Ok in Hstep as [Hlen1 [(-> & -> & _)|(a & -> & Hpair & Hu & _)]].
    + split; [done|]. exists new. split; [done|]. split; [by apply sublist_cons|done].
    + split; [congruence|]. exists (a :: new). split; [by rewrite <- app_assoc|].
      split; [|by constructor]. rewrite !fmap_cons, Hpair. by apply sublist_skip.
Qed.

Lemma sublist_same_length {A} (l1 l2 : list A) :
  l1 `sublist_of` l2 → length l1 = length l2 → l1 = l2.
Proof.
  induction 1 as [|x l1 l2 Hsub IH|x l1 l2 Hsub IH]; simpl; intros Hlen.
  - done.
  - f_equal. apply IH. lia.
  - apply sublist_length in Hsub. lia.
Qed.

(** ** Breadth-first search finds a nearest solved state *)

Section Shortest.
Context (initialVials : list Vial) (strictMode : bool).
Hypothesis plain : plainColors initialVials = true.

Lemma Level_initial :
  isSolved (new_GameState initialVials []) strictMode = false →
  Level initialVials strictMode 0 [new_GameState initialVials []] []
        {[ toString (new_GameState initialVials []) ]}.
Proof.
  intros Hinit. set (s0 := new_GameState initialVials []).
  assert (∀ s, Reach initialVials s → toString s ∈ ({[toString s0]} : gset string) →
               vials s = vials s0) as Hkey.
  { intros s Hs Hin. apply elem_of_singleton in Hin.
    apply (Reach_toString_inj initialVials); [done|done|apply Reach_initial|done]. }
  split_and!.
  - apply Forall_singleton. split; [apply Reach_initial|done].
  - constructor.
  - intros s Hs. apply list_elem_of_singleton in Hs as ->. by apply elem_of_singleton.
  - intros s Hs Hin. by rewrite (isSolved_vials s s0) by auto.
  - intros s m Hs Hin Hout. exfalso. apply Hout. rewrite (Hkey s Hs Hin). simpl. left.
  - intros s Hs Hlen. assert (s = s0) as ->.
    { apply Reach_no_moves; [done|]. destruct (moves s); [done|simpl in Hlen; lia]. }
    split; [by apply elem_of_singleton|]. simpl. apply not_elem_of_nil.
Qed.

Lemma Level_next d B visited : Level initialVials strictMode d [] B visited → Level initialVials strictMode (S d) B [] visited.
Proof.
  intros (_ & HB & Hvis & Huns & Hclosed & Hnear). split_and!.
  - done.
  - constructor.
  - intros s. rewrite app_nil_r. apply Hvis.
  - done.
  - intros s m. rewrite app_nil_r. apply Hclosed.
  - intros s Hs Hlen. split; [|simpl; apply not_elem_of_nil].
    destruct (decide (length (moves s) ≤ d)%nat) as [Hle|Hgt]; [by apply Hnear|].
    destruct (Reach_last_move initialVials s Hs) as (p & m & Hp & Hv & -> & Hm).
    { destruct (moves s); [simpl in Hgt; lia|done]. }
    rewrite Hm, length_app in Hlen. simpl in Hlen.
    destruct (Hnear p Hp) as [Hpv HpB]; [lia|]. by apply Hclosed.
Qed.

Lemma Level_step d a A B visited visited' queue' :
  Level initialVials strictMode d (a :: A) B visited →
  findSolution strictMode (unseen visited (successors a)) visited (A ++ B)
    = (None, visited', queue') →
  queue' = A ++ (B ++ unseen visited (successors a)) ∧
  Level initialVials strictMode d A (B ++ unseen visited (successors a)) visited'.
Proof.
  intros (HA & HB & Hvis & Huns & Hclosed & Hnear) Hfind.
  apply findSolution_none in Hfind as (-> & Hvis' & Hnew).
  split; [by rewrite app_assoc|].
  apply Forall_cons in HA as [[Ha Hda] HA].
  set (new := unseen visited (successors a)) in *.
  assert (∀ c, c ∈ new → ∃ m, validMove a m = true ∧ c = moved a m ∧
                               toString c ∉ visited) as Hnew_spec.
  { intros c Hc. apply elem_of_unseen in Hc as [Hc Hfresh].
    apply elem_of_successors in Hc as (m & Hv & ->). eauto. }
  assert (∀ c, c ∈ new → Reach initialVials c ∧ length (moves c) = S d) as Hnew_reach.
  { intros c Hc. apply Hnew_spec in Hc as (m & Hv & -> & _).
    split; [by apply Reach_moved|]. rewrite moved_moves, length_app by done. simpl. lia. }
  assert (∀ s c, Reach initialVials s → c ∈ new → toString s = toString c → vials s = vials c) as Hinj.
  { intros s c Hs Hc. apply (Reach_toString_inj initialVials); [done|done|].
    by apply Hnew_reach. }
  split_and!.
  - done.
  - apply Forall_app. split; [done|]. apply Forall_forall. exact Hnew_reach.
  - intros s Hs. apply Hvis'. rewrite app_assoc in Hs.
    apply elem_of_app in Hs as [Hs|Hs]; [|right; eauto].
    left. apply Hvis. by right.
  - intros s Hs Hin. apply Hvis' in Hin as [Hin|(c & Hc & Heq)]; [by apply Huns|].
    rewrite (isSolved_vials s c) by (by apply Hinj). by apply Hnew.
  - intros s m Hs Hin Hout Hv. apply Hvis'.
    apply Hvis' in Hin as [Hin|(c & Hc & Heq)].
    + destruct (decide (vials s = vials a)) as [Hsa|Hsa].
      * rewrite (toString_vials _ (moved a m)) by (by apply moved_vials).
        assert (validMove a m = true) as Hva by (by rewrite <- (validMove_vials s a)).
        destruct (decide (toString (moved a m) ∈ visited)) as [?|Hfresh]; [by left|].
        right. exists (moved a m). split; [|done].
        apply elem_of_unseen. split; [|done]. apply elem_of_successors. eauto.
      * left. apply (Hclosed s m); try done.
        change ((a :: A) ++ B) with (a :: (A ++ B)).
        rewrite fmap_cons, elem_of_cons. intros [?|Hq]; [done|].
        apply Hout. rewrite !fmap_app in *. rewrite !elem_of_app in *. tauto.
    + exfalso. apply Hout. rewrite (Hinj s c Hs Hc Heq).
      apply list_elem_of_fmap. exists c. split; [done|].
      rewrite !elem_of_app. tauto.
  - intros s Hs Hlen. destruct (Hnear s Hs Hlen) as [Hin HB'].
    split; [apply Hvis'; by left|].
    rewrite fmap_app, elem_of_app. intros [?|Hc]; [done|].
    apply list_elem_of_fmap in Hc as (c & Heq & Hc).
    destruct (Hnew_spec c Hc) as (m & _ & _ & Hfresh). apply Hfresh.
    by rewrite <- (toString_vials s c).
Qed.

Lemma Level_found d a A B visited s visited' queue' :
  Level initialVials strictMode d (a :: A) B visited →
  findSolution strictMode (unseen visited (successors a)) visited (A ++ B)
    = (Some s, visited', queue') →
  ∀ s', Reach initialVials s' → isSolved s' strictMode = true →
        (length (moves s) ≤ length (moves s'))%nat.
Proof.
  intros (HA & _ & _ & Huns & _ & Hnear) Hfind s' Hs' Hsolved.
  apply findSolution_found in Hfind as [Hin _].
  apply elem_of_unseen in Hin as [Hin _].
  apply elem_of_successors in Hin as (m & Hv & ->).
  apply Forall_cons in HA as [[_ Hda] _].
  rewrite moved_moves, length_app by done. simpl.
  destruct (decide (length (moves s') ≤ d)%nat) as [Hle|Hgt]; [|lia].
  destruct (Hnear s' Hs' Hle) as [Hvis _].
  rewrite (Huns s' Hs' Hvis) in Hsolved. done.
Qed.

Lemma searchRaw_nearest fuel d A B visited explored s n :
  Level initialVials strictMode d A B visited →
  searchRaw fuel strictMode (A ++ B) visited explored = Some (Some s, n) →
  ∀ s', Reach initialVials s' → isSolved s' strictMode = true →
        (length (moves s) ≤ length (moves s'))%nat.
Proof.
  revert d A B visited explored.
  induction fuel as [|fuel IH]; intros d A B visited explored Hlevel; [done|].
  assert (A ++ B = [] ∨
          ∃ d' a A' B', A ++ B = a :: A' ++ B' ∧ Level initialVials strictMode d' (a :: A') B' visited)
    as [->|(d' & a & A' & B' & -> & Hlevel')]; [|done|].
  { destruct A as [|a A].
    - destruct B as [|b B]; [by left|]. right.
      exists (S d), b, B, []. split; [by rewrite app_nil_r|by apply Level_next].
    - right. by exists d, a, A, B. }
  simpl.
  destruct (explored <? MAX_SEARCH_STATES)%nat; [|done].
  destruct (findSolution strictMode (unseen visited (successors a)) visited (A' ++ B'))
    as [[[s1|] visited'] queue'] eqn:Hfind.
  - intros [= -> <-]. by eapply Level_found.
  - destruct (Level_step _ _ _ _ _ _ _ Hlevel' Hfind) as [-> Hlevel''].
    by eapply IH.
Qed.
End Shortest.

(** C8. For indices inside the configuration, [isValidMove] answers: false
    when [from = to]; false when the source vial is empty; false when the
    destination vial holds [MAX_VIAL_CAPACITY] entries (or more); true when
    none of these holds and the destination is empty; and otherwise true
    exactly when the top colors of source and destination are equal. *)
Theorem isValidMove_cases state from to
  (Hfrom : (from < length (vials state))%nat)
  (Hto : (to < length (vials state))%nat) :
  ∃ source dest b,
    vials state !! from = Some source ∧ vials state !! to = Some dest ∧
    isValidMove state from to = Ok b ∧
    (from = to → b = false) ∧
    (source = [] → b = false) ∧
    (MAX_VIAL_CAPACITY ≤ Z.of_nat (length dest) → b = false) ∧
    (from ≠ to → source ≠ [] → Z.of_nat (length dest) < MAX_VIAL_CAPACITY →
       (dest = [] → b = true) ∧
       (dest ≠ [] → (b = true ↔ last source = last dest))).
Proof.
  apply lookup_lt_is_Some in Hfrom as [source Hs].
  apply lookup_lt_is_Some in Hto as [dest Hd].
  exists source, dest. eexists. split; [done|]. split; [done|].
  split; [by apply isValidMove_in_range|].
  unfold MAX_VIAL_CAPACITY.
  destruct (Nat.eqb_spec (length source) 0) as [E|E].
  { split_and!; try done. intros _ Hne. by destruct source. }
  destruct (Nat.eqb_spec from to) as [E'|E']; [by split_and!|].
  destruct (Z.geb_spec (Z.of_nat (length dest)) 4) as [E4|E4].
  { split_and!; try done; lia. }
  destruct (Nat.eqb_spec (length dest) 0) as [E0|E0].
  { split_and!; try done; try lia.
    - intros ->. done.
    - intros _ _ _. split; [done|]. intros Hd'. by destruct dest. }
  split_and!; try done; try lia.
  - intros ->. done.
  - intros _ _ _. split; [intros ->; done|]. intros _. apply bool_decide_eq_true.
Qed.

Lemma isValidMove_cases_witness :
  ∃ source dest b,
    vials (new_GameState [["red"; "blue"]; ["green"; "blue"]] []) !! 0%nat = Some source ∧
    vials (new_GameState [["red"; "blue"]; ["green"; "blue"]] []) !! 1%nat = Some dest ∧
    isValidMove (new_GameState [["red"; "blue"]; ["green"; "blue"]] []) 0 1 = Ok b ∧
    (0%nat = 1%nat → b = false) ∧
    (source = [] → b = false) ∧
    (MAX_VIAL_CAPACITY ≤ Z.of_nat (length dest) → b = false) ∧
    (0%nat ≠ 1%nat → source ≠ [] → Z.of_nat (length dest) < MAX_VIAL_CAPACITY →
       (dest = [] → b = true) ∧
       (dest ≠ [] → (b = true ↔ last source = last dest))).
Proof.
  apply (isValidMove_cases (new_GameState [["red"; "blue"]; ["green"; "blue"]] []) 0 1);
    simpl; lia.
Defined.

(** C6. For a valid move, [executeMove] appends to the destination
    [min(unitsToPour, length of the destination before the pour)] entries
    of the top color, where [unitsToPour = min(count, 4 - length dest)],
    and it removes [unitsToPour] entries from the top of the source.  When
    the destination is empty nothing is appended: it stays empty although
    the source loses [unitsToPour] entries. *)
Theorem executeMove_appends_min_of_units_and_dest_length
    state from to source dest topColor count
  (Hvalid : isValidMove state from to = Ok true)
  (Hsource : vials state !! from = Some source)
  (Hdest : vials state !! to = Some dest)
  (Htop : getTopColorSequence source = Some (topColor, count)) :
  let unitsToPour := Z.min count (MAX_VIAL_CAPACITY - Z.of_nat (length dest)) in
  let appended := Z.min unitsToPour (Z.of_nat (length dest)) in
  ∃ state',
    executeMove state from to = Ok state' ∧
    1 ≤ unitsToPour ≤ Z.of_nat (length source) ∧
    vials state' !! to = Some (dest ++ replicate (Z.to_nat appended) topColor) ∧
    vials state' !! from = Some (take (length source - Z.to_nat unitsToPour) source) ∧
    (dest = [] →
       vials state' !! to = Some [] ∧
       ∃ source', vials state' !! from = Some source' ∧
         Z.of_nat (length source') = Z.of_nat (length source) - unitsToPour).
Proof.
  intros unitsToPour appended.
  destruct (executeMove_valid _ _ _ _ _ Hvalid Hsource Hdest) as (c & n & Ht & He).
  assert (c = topColor ∧ n = count) as [-> ->] by (split; congruence).
  apply getTopColorSequence_bounds in Htop as [_ Hcount].
  apply isValidMove_true in Hvalid as (s' & d' & Hs' & Hd' & _ & Hne & Hlen & _).
  assert (d' = dest) as -> by congruence.
  assert (1 ≤ unitsToPour ≤ Z.of_nat (length source)) as Hu
    by (unfold unitsToPour, MAX_VIAL_CAPACITY; lia).
  eexists. split; [exact He|]. split; [done|]. simpl.
  fold unitsToPour.
  rewrite (pouredVials_to _ _ _ _ _ dest), (pouredVials_from _ _ _ _ _ source)
    by (done || lia).
  split; [done|]. split; [done|].
  intros ->. split; [by unfold appended; simpl; rewrite Z.min_r by lia|].
  eexists. split; [done|]. rewrite length_take. lia.
Qed.

Lemma executeMove_appends_min_of_units_and_dest_length_witness :
  ∃ state',
    executeMove (new_GameState [["green"; "red"; "red"]; ["red"]; []] []) 0 1 = Ok state' ∧
    1 ≤ 2 ≤ 3 ∧
    vials state' !! 1%nat = Some (["red"] ++ replicate (Z.to_nat 1) "red") ∧
    vials state' !! 0%nat = Some (take (3 - Z.to_nat 2) ["green"; "red"; "red"]) ∧
    (["red"] = [] →
       vials state' !! 1%nat = Some [] ∧
       ∃ source', vials state' !! 0%nat = Some source' ∧
         Z.of_nat (length source') = 3 - 2).
Proof.
  apply (executeMove_appends_min_of_units_and_dest_length
           (new_GameState [["green"; "red"; "red"]; ["red"]; []] []) 0 1
           ["green"; "red"; "red"] ["red"] "red" 2); reflexivity.
Defined.

(** C1. On [[["red"], []]] the move (0, 1) is valid, the top run of the
    source is one "red" and one unit fits into the destination, yet
    [executeMove] leaves the destination empty where the pour rule puts
    one "red" on it: the source loses its entry and the destination gains
    none.  The older solver moves the entry. *)
Theorem executeMove_into_empty_vial_appends_nothing :
  let state := new_GameState [["red"]; []] [] in
  let unitsToPour := Z.min 1 (MAX_VIAL_CAPACITY - 0) in
  isValidMove state 0 1 = Ok true ∧
  getTopColorSequence ["red"] = Some ("red", 1) ∧
  unitsToPour = 1 ∧
  ∃ state',
    executeMove state 0 1 = Ok state' ∧
    vials state' = [[]; []] ∧
    vials state' !! 1%nat ≠ Some ([] ++ replicate (Z.to_nat unitsToPour) "red") ∧
    Original.executeMove state 0 1
      = Ok (new_GameState [[]; ["red"]] (moves state')).
Proof.
  split; [done|]. split; [done|]. split; [done|].
  eexists. split; [reflexivity|]. by split_and!.
Qed.

(** C2. One valid pour changes the color totals: from [[["a"; "b"], []]]
    the move (0, 1) leads to [[["a"], []]], in which "b" is no longer
    counted. *)
Theorem executeMove_changes_color_totals :
  let initial := new_GameState [["a"; "b"]; []] [] in
  ∃ state',
    applyMoves initial [{| from := 0; to := 1 |}] = Ok state' ∧
    vials state' = [["a"]; []] ∧
    getTotalColorCounts (vials initial) !! "b" = Some (Count 1) ∧
    getTotalColorCounts (vials state') !! "b" = None ∧
    getTotalColorCounts (vials state') ≠ getTotalColorCounts (vials initial).
Proof.
  eexists. split; [reflexivity|]. split; [reflexivity|].
  split; [by vm_compute|]. split; [by vm_compute|].
  intros Heq. apply (f_equal (λ counts : gmap string Tally, counts !! "b")) in Heq.
  vm_compute in Heq. discriminate.
Qed.

(** C3. On [["red"; "blue"; "red"]] the top entry is "red" and the entry
    below it is "blue", so the run at the top has length 1;
    [getTopColorSequence] answers 2, the number of "red" entries of the
    whole vial.  The older solver answers 1. *)
Theorem getTopColorSequence_counts_every_occurrence :
  getTopColorSequence ["red"; "blue"; "red"] = Some ("red", 2) ∧
  Original.getTopColorSequence ["red"; "blue"; "red"] = Some ("red", 1) ∧
  ∀ vial, getTopColorSequence vial
          = (λ topColor, (topColor, occurrences topColor vial)) <$> last vial.
Proof. split; [done|]. split; [done|]. apply getTopColorSequence_eq. Qed.

(** C5. On [[["a"; "b"], []]] in loose mode the search returns the raw
    path [(0, 1)], annotated as one unit of "b".  Applying the raw path
    with [executeMove] ends in [[["a"], []]]; replaying the annotated move
    ends in [[["a"], ["b"]]]. *)
Theorem annotation_replay_differs_from_raw_run :
  let initialVials := [["a"; "b"]; []] in
  let raw := [{| from := 0; to := 1 |}] in
  let annotation := [{| mfrom := 0; mto := 1; color := "b"; units := 1 |}] in
  solveRaw initialVials false = Some (Some raw) ∧
  solvePuzzle initialVials false = Some (Ok (Some annotation)) ∧
  enrichMoves raw initialVials = Ok annotation ∧
  applyMoves (new_GameState initialVials []) raw
    = Ok (new_GameState [["a"]; []] raw) ∧
  replayAnnotated annotation initialVials = [["a"]; ["b"]] ∧
  replayAnnotated annotation initialVials ≠ [["a"]; []].
Proof. split_and!; by vm_compute. Qed.

(** C9. On [[[], ["a"; "a"; "a"; "a"], ["a"; "b"; "c"]]] in strict mode
    the search finds the raw path [(1, 0); (2, 0); (2, 0)], three valid
    moves that end in a solved state.  Its annotation has two entries: the
    third move is dropped. *)
Theorem enrichMoves_drops_a_move_of_the_solution :
  let initialVials := [[]; ["a"; "a"; "a"; "a"]; ["a"; "b"; "c"]] in
  let raw := [{| from := 1; to := 0 |}; {| from := 2; to := 0 |};
              {| from := 2; to := 0 |}] in
  let annotation := [{| mfrom := 1; mto := 0; color := "a"; units := 4 |};
                     {| mfrom := 2; mto := 0; color := "c"; units := 0 |}] in
  solveRaw initialVials true = Some (Some raw) ∧
  applyMoves (new_GameState initialVials []) raw
    = Ok (new_GameState [[]; []; ["a"]] raw) ∧
  isSolved (new_GameState [[]; []; ["a"]] raw) true = true ∧
  enrichMoves raw initialVials = Ok annotation ∧
  solvePuzzle initialVials true = Some (Ok (Some annotation)) ∧
  length annotation ≠ length raw.
Proof. split_and!; by vm_compute. Qed.

(** C4 (amended). When the color names of the initial configuration are
    plain (not empty, without [","] and without ["|"]), a non-null answer
    of [solvePuzzle] is the annotation ([enrichMoves]) of the move sequence
    that the search found, and that sequence is a shortest solution, not
    merely a solution: its moves are valid one after the other and lead
    from the initial configuration to a solved one, and no sequence of
    valid moves that does so is shorter.  The answer has at most as many
    entries as that sequence, hence as any solving sequence; its
    [(from, to)] pairs are a subsequence of the pairs of that sequence, and
    are those pairs, one for one, when the answer has as many entries. *)
Theorem solvePuzzle_shortest_on_plain_colors
    initialVials strictMode solution
  (Hplain : plainColors initialVials = true)
  (Hsolve : solvePuzzle initialVials strictMode = Some (Ok (Some solution))) :
  ∃ path final,
    solveRaw initialVials strictMode = Some (Some path) ∧
    enrichMoves path initialVials = Ok solution ∧
    applyMoves (new_GameState initialVials []) path = Ok final ∧
    isSolved final strictMode = true ∧
    (∀ ms final',
       applyMoves (new_GameState initialVials []) ms = Ok final' →
       isSolved final' strictMode = true →
       (length path ≤ length ms)%nat ∧ (length solution ≤ length ms)%nat) ∧
    (length solution ≤ length path)%nat ∧
    (pairOfAnnotated <$> solution) `sublist_of` (pairOfMove <$> path) ∧
    (length solution = length path →
     pairOfAnnotated <$> solution = pairOfMove <$> path).
Proof.
  assert (∀ path, enrichMoves path initialVials = Ok solution →
            (length solution ≤ length path)%nat ∧
            (pairOfAnnotated <$> solution) `sublist_of` (pairOfMove <$> path) ∧
            (length solution = length path →
             pairOfAnnotated <$> solution = pairOfMove <$> path)) as Hann.
  { intros path Hen. split; [by apply enrichMoves_length in Hen|].
    unfold enrichMoves in Hen.
    destruct (Js.reduce_res enrichStep path ([], initialVials)) as [[acc vs]|] eqn:Hred;
      simpl in Hen; [|done].
    injection Hen as ->.
    apply reduce_enrichStep_Ok in Hred as (_ & new & Hnew & Hsub & _).
    simpl in Hnew. subst new. split; [done|].
    intros Hlen. apply sublist_same_length; [done|]. by rewrite !length_fmap. }
  unfold solvePuzzle, solvePuzzleFuel in Hsolve. unfold solveRaw.
  destruct (isSolved (new_GameState initialVials []) strictMode) eqn:Hinit.
  { simpl in Hsolve. injection Hsolve as <-.
    exists [], (new_GameState initialVials []).
    split_and!; try done; simpl; intros; lia. }
  rewrite searchLoop_raw in Hsolve.
  destruct (searchRaw _ _ _ _ _) as [[[s|] n]|] eqn:Hraw; simpl in Hsolve; try done.
  destruct (enrichMoves (moves s) initialVials) as [annotation|] eqn:Hen;
    simpl in Hsolve; [|done].
  injection Hsolve as ->.
  destruct (searchRaw_sound initialVials _ _ _ _ _ _ _
              (proj2 (Forall_singleton _ _) (Reach_initial initialVials)) Hraw)
    as [[path Hpath] Hsolved].
  pose proof (applyMoves_moves _ _ _ Hpath) as Hmoves. simpl in Hmoves. subst path.
  destruct (Hann _ Hen) as (Hle & Hsub & Hsame).
  exists (moves s), s. split_and!; try done.
  intros ms final' Hrun Hsolved'.
  assert (length (moves s) ≤ length (moves final'))%nat as Hnear.
  { apply (searchRaw_nearest initialVials strictMode Hplain _ 0
             [new_GameState initialVials []] [] _ _ _ _
             (Level_initial initialVials strictMode Hplain Hinit) Hraw).
    - by exists ms.
    - done. }
  rewrite (applyMoves_moves _ _ _ Hrun) in Hnear. simpl in Hnear. lia.
Qed.

Lemma solvePuzzle_shortest_on_plain_colors_witness :
  plainColors [["red"; "red"]; ["red"; "red"]] = true ∧
  solvePuzzle [["red"; "red"]; ["red"; "red"]] true
    = Some (Ok (Some [{| mfrom := 0; mto := 1; color := "red"; units := 2 |}])) ∧
  ∃ path final,
    solveRaw [["red"; "red"]; ["red"; "red"]] true = Some (Some path) ∧
    enrichMoves path [["red"; "red"]; ["red"; "red"]]
      = Ok [{| mfrom := 0; mto := 1; color := "red"; units := 2 |}] ∧
    applyMoves (new_GameState [["red"; "red"]; ["red"; "red"]] []) path = Ok final ∧
    isSolved final true = true ∧
    (∀ ms final',
       applyMoves (new_GameState [["red"; "red"]; ["red"; "red"]] []) ms = Ok final' →
       isSolved final' true = true →
       (length path ≤ length ms)%nat ∧
       (length [{| mfrom := 0; mto := 1; color := "red"; units := 2 |}]
        ≤ length ms)%nat) ∧
    (length [{| mfrom := 0; mto := 1; color := "red"; units := 2 |}]
     ≤ length path)%nat ∧
    (pairOfAnnotated <$> [{| mfrom := 0; mto := 1; color := "red"; units := 2 |}])
      `sublist_of` (pairOfMove <$> path) ∧
    (length [{| mfrom := 0; mto := 1; color := "red"; units := 2 |}] = length path →
     pairOfAnnotated <$> [{| mfrom := 0; mto := 1; color := "red"; units := 2 |}]
     = pairOfMove <$> path).
Proof.
  split; [by vm_compute|]. split; [by vm_compute|].
  apply (solvePuzzle_shortest_on_plain_colors [["red"; "red"]; ["red"; "red"]] true);
    by vm_compute.
Defined.

(** C4 (counterexample). On [[["a|a"; "a"], ["a"], ["a"; "a|a"]]] in loose
    mode [solvePuzzle] returns three moves, while the two valid moves
    (0, 1), (2, 0) already lead to a solved configuration.  That
    configuration has the string key of the initial one, so the search
    never looks at it. *)
Lemma solvePuzzle_not_shortest_on_key_collision :
  ∃ solution final,
    solvePuzzle [["a|a"; "a"]; ["a"]; ["a"; "a|a"]] false
      = Some (Ok (Some solution)) ∧
    applyMoves (new_GameState [["a|a"; "a"]; ["a"]; ["a"; "a|a"]] [])
               [{| from := 0; to := 1 |}; {| from := 2; to := 0 |}]
      = Ok final ∧
    isSolved final false = true ∧
    toString final
      = toString (new_GameState [["a|a"; "a"]; ["a"]; ["a"; "a|a"]] []) ∧
    ¬ (length solution
       ≤ length [{| from := 0; to := 1 |}; {| from := 2; to := 0 |}])%nat.
Proof.
  eexists. eexists. split; [by vm_compute|]. split; [by vm_compute|].
  split; [by vm_compute|]. split; [by vm_compute|]. simpl. lia.
Qed.

(** * Further properties of the code *)

(** ** More on the move rules *)

(** X1. [isValidMove] throws only a [TypeError], and it does so exactly
    when [from] is outside the configuration, or when the source vial is
    not empty and [to] is outside the configuration; an empty source vial
    answers false whatever [to] is. *)
Theorem isValidMove_throws state from to :
  (∀ e, isValidMove state from to = Throw e →
        e = TypeError ∧
        (vials state !! from = None ∨
         ∃ source, vials state !! from = Some source ∧ source ≠ [] ∧
                   vials state !! to = None)) ∧
  (vials state !! from = None → isValidMove state from to = Throw TypeError) ∧
  (∀ source, vials state !! from = Some source → source ≠ [] →
             vials state !! to = None →
             isValidMove state from to = Throw TypeError) ∧
  (vials state !! from = Some [] → isValidMove state from to = Ok false).
Proof.
  unfold isValidMove. split_and!.
  - intros e. destruct (vials state !! from) as [source|] eqn:Hs; simpl.
    + destruct (Nat.eqb_spec (length source) 0); [done|].
      destruct (Nat.eqb_spec from to) as [->|Hne]; [done|].
      destruct (vials state !! to) as [dest|] eqn:Hd; simpl.
      * by repeat case_match.
      * intros [= <-]. split; [done|]. right. exists source.
        split_and!; try done. by intros ->.
    + intros [= <-]. split; [done|by left].
  - by intros ->.
  - intros source Hs Hne Hd. rewrite Hs. simpl.
    destruct (Nat.eqb_spec (length source) 0) as [E|_]; [by destruct source|].
    destruct (Nat.eqb_spec from to) as [E|_]; [congruence|]. by rewrite Hd.
  - by intros ->.
Qed.

(** X2. [executeMove] succeeds exactly on the moves [isValidMove] accepts:
    it then extends the path by the pair [(from, to)] and keeps the number
    of vials; it throws "Invalid move" when [isValidMove] answers false and
    passes on the exception when [isValidMove] throws. *)
Theorem executeMove_outcome state from to :
  match isValidMove state from to with
  | Ok true =>
      ∃ state',
        executeMove state from to = Ok state' ∧
        moves state' = moves state ++ [{| from := from; to := to |}] ∧
        length (vials state') = length (vials state)
  | Ok false => executeMove state from to = Throw InvalidMove
  | Throw e => executeMove state from to = Throw e
  end.
Proof.
  destruct (isValidMove state from to) as [[|]|e] eqn:Hv.
  - destruct (isValidMove_true _ _ _ Hv) as (source & dest & Hs & Hd & _).
    destruct (executeMove_valid _ _ _ _ _ Hv Hs Hd) as (c & n & _ & He).
    eexists. split; [exact He|]. split; [done|]. apply pouredVials_length.
  - unfold executeMove. by rewrite Hv.
  - unfold executeMove. by rewrite Hv.
Qed.

Lemma executeMove_Ok_inv state from to state' :
  executeMove state from to = Ok state' →
  ∃ source dest topColor count,
    isValidMove state from to = Ok true ∧
    vials state !! from = Some source ∧ vials state !! to = Some dest ∧
    getTopColorSequence source = Some (topColor, count) ∧
    vials state' =
      pouredVials (vials state) from to topColor
        (Z.min count (MAX_VIAL_CAPACITY - Z.of_nat (length dest))).
Proof.
  intros He. destruct (executeMove_Ok _ _ _ _ He) as [Hv _].
  apply validMove_true in Hv. simpl in Hv.
  destruct (isValidMove_true _ _ _ Hv) as (source & dest & Hs & Hd & _).
  destruct (executeMove_valid _ _ _ _ _ Hv Hs Hd) as (c & n & Ht & He').
  exists source, dest, c, n. split_and!; try done.
  rewrite He in He'. by injection He' as ->.
Qed.

(** X3. A pour keeps the capacity invariant: when no vial holds more than
    [MAX_VIAL_CAPACITY] entries before [executeMove], none does after it. *)
Theorem executeMove_keeps_capacity state from to state'
  (Hmove : executeMove state from to = Ok state')
  (Hcap : Forall (λ vial : list string, Z.of_nat (length vial) ≤ MAX_VIAL_CAPACITY)
                 (vials state)) :
  Forall (λ vial : list string, Z.of_nat (length vial) ≤ MAX_VIAL_CAPACITY)
         (vials state').
Proof.
  destruct (executeMove_Ok_inv _ _ _ _ Hmove)
    as (source & dest & c & n & Hv & Hs & Hd & Ht & ->).
  apply getTopColorSequence_bounds in Ht as [_ Hn].
  apply isValidMove_true in Hv as (s' & d' & Hs' & Hd' & _ & Hne & Hlen & _).
  assert (d' = dest) as -> by congruence. unfold MAX_VIAL_CAPACITY in *.
  apply Forall_lookup. intros i v Hi.
  destruct (decide (i = from)) as [->|Hif].
  - rewrite (pouredVials_from _ _ _ _ _ source) in Hi by (done || lia).
    injection Hi as <-. rewrite length_take.
    rewrite Forall_lookup in Hcap. specialize (Hcap _ _ Hs). simpl in Hcap. lia.
  - destruct (decide (i = to)) as [->|Hit].
    + rewrite (pouredVials_to _ _ _ _ _ dest) in Hi by (done || lia).
      injection Hi as <-. rewrite length_app, length_replicate. lia.
    + rewrite pouredVials_other in Hi by done.
      rewrite Forall_lookup in Hcap. exact (Hcap _ _ Hi).
Qed.

Lemma executeMove_keeps_capacity_witness :
  Forall (λ vial : list string, Z.of_nat (length vial) ≤ MAX_VIAL_CAPACITY)
         [["a"]; ["c"; "b"; "b"; "b"]].
Proof.
  apply (executeMove_keeps_capacity
           (new_GameState [["a"; "b"; "b"]; ["c"; "b"]] []) 0 1
           (new_GameState [["a"]; ["c"; "b"; "b"; "b"]] [{| from := 0; to := 1 |}])).
  - reflexivity.
  - repeat constructor; unfold MAX_VIAL_CAPACITY; simpl; lia.
Defined.

(** X4. A pour changes two vials only: every vial other than the source
    and the destination is the same before and after [executeMove]. *)
Theorem executeMove_other_vials_unchanged state from to state' i
  (Hmove : executeMove state from to = Ok state')
  (Hfrom : i ≠ from) (Hto : i ≠ to) :
  vials state' !! i = vials state !! i.
Proof.
  destruct (executeMove_Ok_inv _ _ _ _ Hmove)
    as (source & dest & c & n & _ & _ & _ & _ & ->).
  by apply pouredVials_other.
Qed.

Lemma executeMove_other_vials_unchanged_witness :
  vials (new_GameState [["a"]; ["c"; "b"; "b"]; ["d"; "b"; "b"]]
                       [{| from := 0; to := 2 |}]) !! 1%nat
  = vials (new_GameState [["a"; "b"]; ["c"; "b"; "b"]; ["d"; "b"]] []) !! 1%nat.
Proof.
  apply (executeMove_other_vials_unchanged
           (new_GameState [["a"; "b"]; ["c"; "b"; "b"]; ["d"; "b"]] []) 0 2);
    [reflexivity|lia|lia].
Defined.

(** ** Sums over the vials of a configuration *)

Lemma sum_list_with_insert {A} (f : A → nat) (l : list A) i x y :
  l !! i = Some x →
  (sum_list_with f (<[i:=y]> l) + f x = sum_list_with f l + f y)%nat.
Proof.
  revert i. induction l as [|a l IH]; intros [|i] Hi; simpl in *; try done.
  - injection Hi as ->. lia.
  - specialize (IH i Hi). lia.
Qed.

Lemma length_concat_sum (vs : list (list string)) :
  length (concat vs) = sum_list_with length vs.
Proof. induction vs as [|v vs IH]; simpl; [done|]. by rewrite length_app, IH. Qed.

Lemma pouredVials_inserts vs from to c u source dest :
  vs !! from = Some source → vs !! to = Some dest → from ≠ to → 0 < u →
  pouredVials vs from to c u =
    <[to := dest ++ replicate (Z.to_nat (Z.min u (Z.of_nat (length dest)))) c]>
      (<[from := take (length source - Z.to_nat u) source]> vs).
Proof.
  intros Hs Hd Hne Hu. apply list_eq. intros i.
  destruct (decide (i = to)) as [->|Hit].
  - rewrite (pouredVials_to _ _ _ _ _ dest) by done.
    rewrite list_lookup_insert_eq; [done|].
    rewrite length_insert. by eapply lookup_lt_Some.
  - rewrite list_lookup_insert_ne by done.
    destruct (decide (i = from)) as [->|Hif].
    + rewrite (pouredVials_from _ _ _ _ _ source) by done.
      rewrite list_lookup_insert_eq; [done|]. by eapply lookup_lt_Some.
    + rewrite list_lookup_insert_ne by done. by apply pouredVials_other.
Qed.

(** X5. A pour never adds entries and never brings in a color name: the
    configuration after [executeMove] holds at most as many entries as the
    one before, and every color in it was in the one before. *)
Theorem executeMove_never_adds_entries state from to state'
  (Hmove : executeMove state from to = Ok state') :
  (length (concat (vials state')) ≤ length (concat (vials state)))%nat ∧
  ∀ color vial', vial' ∈ vials state' → color ∈ vial' →
                 ∃ vial, vial ∈ vials state ∧ color ∈ vial.
Proof.
  split.
  - destruct (executeMove_Ok_inv _ _ _ _ Hmove)
      as (source & dest & c & n & Hv & Hs & Hd & Ht & ->).
    apply getTopColorSequence_bounds in Ht as [_ Hn].
    apply isValidMove_true in Hv as (s' & d' & Hs' & Hd' & _ & Hne & Hlen & _).
    assert (d' = dest) as -> by congruence. unfold MAX_VIAL_CAPACITY in *.
    set (u := Z.min n (4 - Z.of_nat (length dest))).
    rewrite (pouredVials_inserts _ _ _ _ _ source dest) by (done || lia).
    rewrite !length_concat_sum.
    pose proof (sum_list_with_insert length (vials state) from source
                  (take (length source - Z.to_nat u) source) Hs) as H1.
    assert (<[from := take (length source - Z.to_nat u) source]> (vials state) !! to
            = Some dest) as Hd2 by (by rewrite list_lookup_insert_ne).
    pose proof (sum_list_with_insert length _ to dest
                  (dest ++ replicate (Z.to_nat (Z.min u (Z.of_nat (length dest)))) c)
                  Hd2) as H2.
    rewrite length_app, length_replicate in H2. rewrite length_take in H1. lia.
  - intros color vial' Hv' Hc.
    destruct (executeMove_Ok _ _ _ _ Hmove) as [Hv ->].
    destruct (moved_shape _ _ Hv) as [_ HP].
    specialize (HP (λ x, ∃ vial, vial ∈ vials state ∧ x ∈ vial)). simpl in HP.
    assert (Forall (Forall (λ x, ∃ vial, vial ∈ vials state ∧ x ∈ vial)) (vials state))
      as Hall.
    { apply Forall_forall. intros v Hin. apply Forall_forall. eauto. }
    apply HP in Hall. rewrite Forall_forall in Hall.
    specialize (Hall _ Hv'). rewrite Forall_forall in Hall. by apply Hall.
Qed.

Lemma executeMove_never_adds_entries_witness :
  (length (concat [["a"]; []]) ≤ length (concat [["a"; "b"]; []]))%nat ∧
  ∀ color vial', vial' ∈ [["a"]; []] → color ∈ vial' →
                 ∃ vial, vial ∈ [["a"; "b"]; []] ∧ color ∈ vial.
Proof.
  apply (executeMove_never_adds_entries
           (new_GameState [["a"; "b"]; []] []) 0 1
           (new_GameState [["a"]; []] [{| from := 0; to := 1 |}])).
  reflexivity.
Defined.

Lemma all_pairs_length n : length (all_pairs n) = (n * n)%nat.
Proof.
  unfold all_pairs.
  assert (∀ l l' : list nat,
            length (flat_map (λ f, map (λ t, {| from := f; to := t |}) l) l')
            = (length l' * length l)%nat) as Hlen.
  { intros l. induction l' as [|x l' IH]; simpl; [done|].
    by rewrite length_app, length_map, IH. }
  by rewrite Hlen, length_seq.
Qed.

(** X6. [generateNextStates] does not throw, whatever the state; its
    answer lists exactly the states that [executeMove] reaches from the
    state by one move, and has at most N * N entries for N vials. *)
Theorem generateNextStates_lists_the_moves state :
  ∃ nextStates,
    generateNextStates state = Ok nextStates ∧
    (∀ state', state' ∈ nextStates ↔
               ∃ from to, executeMove state from to = Ok state') ∧
    (length nextStates ≤ length (vials state) * length (vials state))%nat.
Proof.
  exists (successors state). split; [apply generateNextStates_successors|]. split.
  - intros state'. rewrite elem_of_successors. split.
    + intros (m & Hv & ->). exists (from m), (to m). by apply executeMove_moved.
    + intros (f & t & He). apply executeMove_Ok in He as [Hv ->]. eauto.
  - unfold successors. rewrite length_map, <- all_pairs_length.
    apply filter_length_le.
Qed.

(** ** More on the goal check *)

Lemma isSolved_loose_checks state :
  isSolved state false = true ↔
  ∀ vial x, vial ∈ vials state → x ∈ vial → head vial = Some x.
Proof.
  unfold isSolved.
  destruct (forallb monochrome (vials state)) eqn:Hm; simpl.
  - split; [|done]. intros _ vial x Hv. apply monochrome_true.
    rewrite forallb_forall in Hm. by apply Hm, list_elem_of_In.
  - split; [done|]. intros H. rewrite <- Hm. apply forallb_forall.
    intros vial Hv. apply monochrome_true. intros x. apply H. by apply list_elem_of_In.
Qed.

(** X7. In loose mode [isSolved] answers true exactly when every vial is
    empty or holds one color only; strict mode is stronger (what it accepts
    loose mode accepts too), and a configuration whose vials are all empty
    is solved in both modes. *)
Theorem isSolved_loose_iff state :
  (isSolved state false = true ↔
     ∀ vial, vial ∈ vials state → vial = [] ∨ ∃ c, ∀ x, x ∈ vial → x = c) ∧
  (isSolved state true = true → isSolved state false = true) ∧
  (Forall (λ vial, vial = []) (vials state) →
   ∀ strictMode, isSolved state strictMode = true).
Proof.
  split_and!.
  - rewrite isSolved_loose_checks. split.
    + intros H vial Hv. destruct vial as [|c vial]; [by left|]. right. exists c.
      intros x Hx. specialize (H _ _ Hv Hx). simpl in H. congruence.
    + intros H vial x Hv Hx. destruct (H vial Hv) as [->|[c Hc]].
      * by apply elem_of_nil in Hx.
      * destruct vial as [|c' vial]; [by apply elem_of_nil in Hx|]. simpl.
        rewrite (Hc x Hx), (Hc c'); [done|left].
  - rewrite isSolved_strict_checks, isSolved_loose_checks. by intros [H _].
  - intros Hempty [|].
    + apply isSolved_strict_checks. rewrite Forall_forall in Hempty. split_and!.
      * intros vial x Hv Hx. rewrite (Hempty _ Hv) in Hx. by apply elem_of_nil in Hx.
      * intros i1 v1 i2 v2 c H1 _ Hc. apply list_elem_of_lookup_2 in H1.
        rewrite (Hempty _ H1) in Hc. done.
      * intros i v c H1 Hc. apply list_elem_of_lookup_2 in H1.
        rewrite (Hempty _ H1) in Hc. done.
    + apply isSolved_loose_checks. rewrite Forall_forall in Hempty.
      intros vial x Hv Hx. rewrite (Hempty _ Hv) in Hx. by apply elem_of_nil in Hx.
Qed.

Lemma totalCount_occurs c vs :
  totalCount c vs ≠ 0%nat → ∃ vial, vial ∈ vs ∧ c ∈ vial.
Proof.
  unfold totalCount. intros E.
  destruct (List.filter _ _) as [|x l] eqn:Hf; [done|].
  assert (x ∈ List.filter (λ color, String.eqb color c) (concat vs)) as Hin
    by (rewrite Hf; left).
  apply list_elem_of_In, filter_In in Hin as [Hin Hx].
  apply String.eqb_eq in Hx as ->.
  apply in_concat in Hin as (vial & Hv & Hc).
  exists vial. by rewrite !list_elem_of_In.
Qed.

Lemma totalCount_zero c vs :
  totalCount c vs = 0%nat ↔ ∀ vial, vial ∈ vs → c ∉ vial.
Proof.
  split.
  - intros E vial Hv Hc. pose proof (totalCount_pos c vs vial Hv Hc). lia.
  - intros Hnone. destruct (decide (totalCount c vs = 0%nat)) as [|E]; [done|].
    apply totalCount_occurs in E as (vial & Hv & Hc). by destruct (Hnone vial Hv).
Qed.

(** X8. The table of [getTotalColorCounts] is an object literal.  A color
    named unlike every property of [Object.prototype] is mapped to the
    number of entries that carry it, over all vials, and never to 0.  A
    color named like an inherited method is mapped, once it occurs, to a
    value that is no number; ["__proto__"] is never a key.  Any other color
    that occurs in no vial is not a key either. *)
Theorem getTotalColorCounts_counts (vs : list (list string)) (c : string) :
  (c ∉ objectPrototypeNames →
   ∀ v, getTotalColorCounts vs !! c = Some v ↔
        v = Count (totalCount c vs) ∧ (0 < totalCount c vs)%nat) ∧
  (c ∈ objectPrototypeNames → c ≠ "__proto__" →
   ∀ v, getTotalColorCounts vs !! c = Some v ↔
        v = NotNumeric ∧ ∃ vial, vial ∈ vs ∧ c ∈ vial) ∧
  getTotalColorCounts vs !! "__proto__" = None ∧
  (c ≠ "__proto__" →
   getTotalColorCounts vs !! c = None ↔ ∀ vial, vial ∈ vs → c ∉ vial) ∧
  (totalCount c vs = sum_list_with (λ vial, Z.to_nat (occurrences c vial)) vs).
Proof.
  rewrite !getTotalColorCounts_lookup. unfold tallyOf. split_and!.
  - intros Hown%inherited_false v. rewrite Hown.
    destruct (Nat.eqb_spec (totalCount c vs) 0) as [E|E].
    + split; [done|]. intros [_ ?]. lia.
    + destruct (String.eqb_spec c "__proto__") as [->|_]; [done|].
      split; [intros [= <-]; split; [done|lia]|]. by intros [-> _].
  - intros Hin Hproto v.
    assert (JsObject.inherited c = true) as ->
      by (by apply bool_decide_eq_true).
    destruct (Nat.eqb_spec (totalCount c vs) 0) as [E|E].
    + split; [done|]. intros [_ (vial & Hv & Hc)].
      pose proof (totalCount_pos c vs vial Hv Hc). lia.
    + destruct (String.eqb_spec c "__proto__") as [->|_]; [done|].
      split; [intros [= <-]|by intros [-> _]]. split; [done|].
      by apply totalCount_occurs.
  - by destruct (_ =? 0)%nat.
  - intros Hproto. rewrite <- totalCount_zero.
    destruct (Nat.eqb_spec (totalCount c vs) 0) as [E|E]; [done|].
    destruct (String.eqb_spec c "__proto__") as [->|_]; [done|].
    by destruct (JsObject.inherited c).
  - unfold totalCount. induction vs as [|v vs IH]; simpl; [done|].
    rewrite List.filter_app, length_app, IH. f_equal.
    clear IH. induction v as [|x v IH]; simpl; [done|].
    rewrite occurrences_cons. pose proof (occurrences_bounds c v).
    destruct (String.eqb x c); simpl; lia.
Qed.


(** X9. [toString] reads the vials only, not the path; and on plain color
    names it is a faithful key: two states with the same number of vials
    and the same string have the same vials. *)
Theorem toString_faithful_on_plain_colors s1 s2
  (Hplain1 : plainColors (vials s1) = true)
  (Hplain2 : plainColors (vials s2) = true)
  (Hlen : length (vials s1) = length (vials s2)) :
  toString s1 = toString s2 ↔ vials s1 = vials s2.
Proof.
  split; [by apply toString_inj|apply toString_vials].
Qed.

Lemma toString_faithful_on_plain_colors_witness :
  toString (new_GameState [["red"; "blue"]; []] [])
  = toString (new_GameState [["red"; "blue"]; []] [{| from := 1; to := 0 |}])
  ↔ [["red"; "blue"]; []] = [["red"; "blue"]; @nil string].
Proof.
  apply (toString_faithful_on_plain_colors
           (new_GameState [["red"; "blue"]; []] [])
           (new_GameState [["red"; "blue"]; []] [{| from := 1; to := 0 |}]));
    reflexivity.
Defined.

(** ** More on the annotator *)

(** X10. The annotator keeps the order of the moves: whenever
    [enrichMoves] returns, the [(from, to)] pairs of its answer are a
    subsequence of the pairs of its input (a move is either annotated in
    place or left out, never added, changed or reordered), and no annotated
    move carries more than [MAX_VIAL_CAPACITY] units. *)
Theorem enrichMoves_keeps_order ms initialVials annotation
  (Hrun : enrichMoves ms initialVials = Ok annotation) :
  (pairOfAnnotated <$> annotation) `sublist_of` (pairOfMove <$> ms) ∧
  Forall (λ a, units a ≤ MAX_VIAL_CAPACITY) annotation.
Proof.
  unfold enrichMoves in Hrun.
  destruct (Js.reduce_res enrichStep ms ([], initialVials)) as [[acc vs]|] eqn:Hred;
    simpl in Hrun; [|done].
  injection Hrun as <-.
  by apply reduce_enrichStep_Ok in Hred as (_ & new & -> & Hsub & Hu).
Qed.

Lemma enrichMoves_keeps_order_witness :
  (pairOfAnnotated <$> [{| mfrom := 1; mto := 0; color := "a"; units := 4 |};
                        {| mfrom := 2; mto := 0; color := "c"; units := 0 |}])
    `sublist_of`
  (pairOfMove <$> [{| from := 1; to := 0 |}; {| from := 2; to := 0 |};
                   {| from := 2; to := 0 |}]) ∧
  Forall (λ a, units a ≤ MAX_VIAL_CAPACITY)
         [{| mfrom := 1; mto := 0; color := "a"; units := 4 |};
          {| mfrom := 2; mto := 0; color := "c"; units := 0 |}].
Proof.
  apply (enrichMoves_keeps_order
           [{| from := 1; to := 0 |}; {| from := 2; to := 0 |}; {| from := 2; to := 0 |}]
           [[]; ["a"; "a"; "a"; "a"]; ["a"; "b"; "c"]]).
  reflexivity.
Defined.

Lemma slice_length_le {A} (l : list A) a b : (length (Js.slice l a b) ≤ length l)%nat.
Proof. unfold Js.slice. rewrite length_take, length_drop. lia. Qed.

Lemma enrichStep_withinCapacity ms vs m :
  withinCapacity vs → inRange (length vs) m →
  ∃ ms' vs',
    enrichStep (ms, vs) m = Ok (ms', vs') ∧ withinCapacity vs' ∧
    (ms' = ms ∨ ∃ a, ms' = ms ++ [a] ∧ 0 ≤ units a).
Proof.
  intros Hcap [Hf Ht]. pose proof (enrichStep_cases ms vs m) as Hc.
  apply lookup_lt_is_Some in Hf as [source Hs].
  apply lookup_lt_is_Some in Ht as [dest Hd].
  rewrite Hs, Hd in Hc. destruct source as [|x source].
  { exists ms, vs. split; [done|]. split; [done|by left]. }
  destruct (last (x :: source)) as [c|] eqn:Hl; [|by apply last_None in Hl].
  cbv zeta in Hc. pose proof (occurrences_top_pos _ _ Hl) as Hocc.
  unfold withinCapacity in Hcap. rewrite Forall_lookup in Hcap.
  pose proof (Hcap _ _ Hd) as Hdcap. simpl in Hdcap. unfold MAX_VIAL_CAPACITY in *.
  set (u := Z.min _ _) in Hc.
  destruct (decide _) as [[_ Hneg]|_]; [subst u; lia|].
  eexists _, _. split; [exact Hc|]. split.
  - apply Forall_lookup. intros i v Hi. unfold enrichedVials in Hi.
    apply list_lookup_imap_Some in Hi as (y & Hy & ->).
    pose proof (Hcap _ _ Hy) as Hycap. simpl in Hycap. unfold MAX_VIAL_CAPACITY.
    destruct (i =? from m)%nat; [pose proof (slice_length_le y 0 (- u)); lia|].
    destruct (Nat.eqb_spec i (to m)) as [->|_]; [|done].
    assert (y = dest) as -> by congruence.
    rewrite length_app, length_replicate. subst u. lia.
  - right. eexists. split; [done|]. simpl. subst u. lia.
Qed.

Lemma reduce_enrichStep_within_capacity ms acc vs :
  withinCapacity vs → Forall (inRange (length vs)) ms →
  Forall (λ a, 0 ≤ units a) acc →
  ∃ acc' vs', Js.reduce_res enrichStep ms (acc, vs) = Ok (acc', vs') ∧
              Forall (λ a, 0 ≤ units a) acc'.
Proof.
  intros Hvs Hrange. revert acc vs Hvs Hrange.
  induction ms as [|m ms IH]; intros acc vs Hvs Hrange Hacc.
  - by exists acc, vs.
  - apply Forall_cons in Hrange as [Hm Hms].
    destruct (enrichStep_withinCapacity acc vs m Hvs Hm)
      as (acc1 & vs1 & Hstep & Hvs1 & Hacc1).
    rewrite reduce_res_cons, Hstep.
    change (∃ acc' vs', Js.reduce_res enrichStep ms (acc1, vs1) = Ok (acc', vs') ∧
                        Forall (λ a, 0 ≤ units a) acc').
    apply enrichStep_Ok in Hstep as [Hlen _].
    apply IH; [done|by rewrite Hlen|].
    destruct Hacc1 as [->|(a & -> & Ha)]; [done|].
    apply Forall_app. split; [done|]. by apply Forall_singleton.
Qed.

(** X11. On a configuration within capacity the annotator does not throw:
    for moves whose indices lie inside the configuration, [enrichMoves]
    returns an annotation, in which every move carries between 0 and
    [MAX_VIAL_CAPACITY] units. *)
Theorem enrichMoves_total_within_capacity ms initialVials
  (Hcap : withinCapacity initialVials)
  (Hrange : Forall (inRange (length initialVials)) ms) :
  ∃ annotation,
    enrichMoves ms initialVials = Ok annotation ∧
    Forall (λ a, 0 ≤ units a ≤ MAX_VIAL_CAPACITY) annotation.
Proof.
  unfold enrichMoves.
  destruct (reduce_enrichStep_within_capacity ms [] initialVials Hcap Hrange)
    as (acc' & vs' & Hred & Hacc'); [constructor|].
  exists acc'. rewrite Hred. split; [done|].
  apply reduce_enrichStep_Ok in Hred as (_ & new & -> & _ & Hu). simpl in *.
  rewrite Forall_forall in Hacc', Hu. apply Forall_forall. intros a Ha.
  split; [by apply Hacc'|by apply Hu].
Qed.

Lemma enrichMoves_total_within_capacity_witness :
  ∃ annotation,
    enrichMoves [{| from := 0; to := 1 |}] [["a"; "b"]; []] = Ok annotation ∧
    Forall (λ a, 0 ≤ units a ≤ MAX_VIAL_CAPACITY) annotation.
Proof.
  apply (enrichMoves_total_within_capacity [{| from := 0; to := 1 |}] [["a"; "b"]; []]).
  - repeat constructor; unfold MAX_VIAL_CAPACITY; simpl; lia.
  - repeat constructor; simpl; lia.
Defined.

(** ** More on the search *)

Lemma Reach_inRange initialVials s :
  Reach initialVials s → Forall (inRange (length initialVials)) (moves s).
Proof.
  intros [ms Hms]. rewrite (applyMoves_moves _ _ _ Hms). simpl.
  revert s Hms. induction ms as [|m ms IH] using rev_ind; intros s Hms; [constructor|].
  rewrite applyMoves_app in Hms.
  destruct (applyMoves (new_GameState initialVials []) ms) as [p|] eqn:Hp; [|done].
  simpl in Hms.
  destruct (executeMove p (from m) (to m)) as [s1|] eqn:He; simpl in Hms; [|done].
  apply executeMove_Ok in He as [Hv _].
  apply Forall_app. split; [by eapply IH|]. apply Forall_singleton.
  apply validMove_in_range in Hv. simpl in Hv.
  destruct (Reach_shape initialVials p) as [Hlen _]; [by exists ms|].
  unfold inRange. by rewrite <- Hlen.
Qed.

(** X12. On a configuration within capacity [solvePuzzle] does not throw:
    it returns either [null] or a list of annotated moves. *)
Theorem solvePuzzle_total_within_capacity initialVials strictMode
  (Hcap : withinCapacity initialVials) :
  ∃ result, solvePuzzle initialVials strictMode = Some (Ok result).
Proof.
  destruct (solvePuzzleFuel_raw (S MAX_SEARCH_STATES) initialVials strictMode)
    as (found & n & Hrun & _ & _ & Hfound & _); [lia|].
  unfold solvePuzzle. rewrite Hrun. simpl.
  destruct found as [s|]; simpl; [|by exists None].
  destruct (Hfound s eq_refl) as [Hreach _].
  apply Reach_inRange in Hreach.
  destruct (reduce_enrichStep_within_capacity (moves s) [] initialVials Hcap Hreach)
    as (acc' & vs' & Hred & _); [constructor|].
  unfold enrichMoves. rewrite Hred. simpl. by eexists.
Qed.

Lemma solvePuzzle_total_within_capacity_witness :
  ∃ result, solvePuzzle [["red"; "red"]; ["red"; "red"]] true = Some (Ok result).
Proof.
  apply (solvePuzzle_total_within_capacity [["red"; "red"]; ["red"; "red"]] true).
  repeat constructor; unfold MAX_VIAL_CAPACITY; simpl; lia.
Defined.

(** X13. [solvePuzzle] answers the empty list exactly when the initial
    configuration is already solved: the annotation of a path the search
    found is never empty. *)
Theorem solvePuzzle_empty_iff_solved initialVials strictMode :
  solvePuzzle initialVials strictMode = Some (Ok (Some []))
  ↔ isSolved (new_GameState initialVials []) strictMode = true.
Proof.
  split.
  - intros Hsolve. destruct (isSolved (new_GameState initialVials []) strictMode) eqn:Hinit;
      [done|]. exfalso.
    unfold solvePuzzle, solvePuzzleFuel in Hsolve. rewrite Hinit, searchLoop_raw in Hsolve.
    destruct (searchRaw _ _ _ _ _) as [[[s|] n]|] eqn:Hraw; simpl in Hsolve; try done.
    destruct (searchRaw_sound initialVials _ _ _ _ _ _ _
                (proj2 (Forall_singleton _ _) (Reach_initial initialVials)) Hraw)
      as [Hreach Hsolved].
    destruct (moves s) as [|m0 rest] eqn:Hms.
    { rewrite (Reach_no_moves _ _ Hreach Hms) in Hsolved. congruence. }
    apply Reach_moves in Hreach. rewrite Hms in Hreach. simpl in Hreach.
    destruct (executeMove (new_GameState initialVials []) (from m0) (to m0))
      as [s1|] eqn:He; [|done].
    apply executeMove_Ok_inv in He as (source & dest & c & k & Hv & Hs & Hd & Ht & _).
    apply isValidMove_true in Hv as (s' & _ & Hs' & _ & Hne & _).
    simpl in Hs, Hs', Hd. assert (s' = source) as -> by congruence.
    unfold enrichMoves in Hsolve. rewrite reduce_res_cons in Hsolve.
    pose proof (enrichStep_cases [] initialVials m0) as Hc. rewrite Hs, Hd in Hc.
    destruct source as [|x source]; [done|].
    destruct (last (x :: source)) as [c'|]; [|by rewrite Hc in Hsolve].
    cbv zeta in Hc. destruct (decide _); rewrite Hc in Hsolve; [done|].
    simpl in Hsolve.
    destruct (Js.reduce_res enrichStep rest _) as [[acc vs]|] eqn:Hred; [|done].
    apply reduce_enrichStep_Ok in Hred as (_ & new & -> & _).
    simpl in Hsolve. done.
  - intros Hinit. unfold solvePuzzle, solvePuzzleFuel. by rewrite Hinit.
Qed.

Section Exhausted.
Context (initialVials : list Vial) (strictMode : bool).
Hypothesis plain : plainColors initialVials = true.

(** When the queue is empty every state within reach is visited. *)
Lemma Level_empty_closed d visited s :
  Level initialVials strictMode d [] [] visited →
  Reach initialVials s → toString s ∈ visited.
Proof.
  intros (_ & _ & _ & _ & Hclosed & Hnear) [ms Hms]. revert s Hms.
  induction ms as [|m ms IH] using rev_ind; intros s Hms.
  - simpl in Hms. injection Hms as <-.
    apply Hnear; [apply Reach_initial|simpl; lia].
  - rewrite applyMoves_app in Hms.
    destruct (applyMoves (new_GameState initialVials []) ms) as [p|] eqn:Hp; [|done].
    simpl in Hms.
    destruct (executeMove p (from m) (to m)) as [s1|] eqn:He; simpl in Hms; [|done].
    injection Hms as ->. apply executeMove_Ok in He as [Hv ->].
    apply Hclosed; [by exists ms|by apply IH| |done].
    simpl. apply not_elem_of_nil.
Qed.

Lemma searchRaw_exhausted fuel d A B visited explored n :
  Level initialVials strictMode d A B visited →
  searchRaw fuel strictMode (A ++ B) visited explored = Some (None, n) →
  (n < MAX_SEARCH_STATES)%nat →
  ∀ s, Reach initialVials s → isSolved s strictMode = false.
Proof.
  revert d A B visited explored.
  induction fuel as [|fuel IH]; intros d A B visited explored Hlevel; [done|].
  destruct A as [|a A].
  - destruct B as [|b B].
    + intros _ _ s Hs. destruct Hlevel as (H1 & H2 & H3 & Huns & H5 & H6).
      apply Huns; [done|].
      apply (Level_empty_closed d); [|done]. by split_and!.
    + apply Level_next in Hlevel. simpl.
      destruct (Nat.ltb_spec explored MAX_SEARCH_STATES) as [Hlt|Hge].
      2:{ intros [= <-] ?. lia. }
      destruct (findSolution strictMode (unseen visited (successors b)) visited B)
        as [[[s1|] visited'] queue'] eqn:Hfind; [done|].
      rewrite <- (app_nil_r B) in Hfind.
      destruct (Level_step initialVials strictMode plain _ _ _ _ _ _ _ Hlevel Hfind)
        as [-> Hlevel'].
      by eapply IH.
  - simpl. destruct (Nat.ltb_spec explored MAX_SEARCH_STATES) as [Hlt|Hge].
    2:{ intros [= <-] ?. lia. }
    destruct (findSolution strictMode (unseen visited (successors a)) visited (A ++ B))
      as [[[s1|] visited'] queue'] eqn:Hfind; [done|].
    destruct (Level_step initialVials strictMode plain _ _ _ _ _ _ _ Hlevel Hfind)
      as [-> Hlevel'].
    by eapply IH.
Qed.
End Exhausted.

(** X14. With plain color names, a [null] answer that comes before the
    budget is used up means that the puzzle has no solution: when
    [solvePuzzle] returns [null] after taking fewer than
    [MAX_SEARCH_STATES] states off the queue, no sequence of valid moves
    leads from the initial configuration to a solved one. *)
Theorem solvePuzzle_null_means_unsolvable
    initialVials strictMode dequeued ms final
  (Hplain : plainColors initialVials = true)
  (Hnull : solvePuzzleFuel (S MAX_SEARCH_STATES) initialVials strictMode
           = Some (Ok None, dequeued))
  (Hbudget : (dequeued < MAX_SEARCH_STATES)%nat)
  (Hrun : applyMoves (new_GameState initialVials []) ms = Ok final) :
  isSolved final strictMode = false.
Proof.
  unfold solvePuzzleFuel in Hnull.
  destruct (isSolved (new_GameState initialVials []) strictMode) eqn:Hinit; [done|].
  rewrite searchLoop_raw in Hnull.
  destruct (searchRaw _ _ _ _ _) as [[found n]|] eqn:Hraw; [|done].
  injection Hnull as Hann ->.
  destruct found as [s|].
  { simpl in Hann. by destruct (enrichMoves (moves s) initialVials). }
  apply (searchRaw_exhausted initialVials strictMode Hplain _ 0
           [new_GameState initialVials []] [] _ _ _
           (Level_initial initialVials strictMode Hplain Hinit) Hraw Hbudget).
  by exists ms.
Qed.

Lemma solvePuzzle_null_means_unsolvable_witness :
  plainColors [["a"; "a"]; ["b"; "c"; "a"]] = true ∧
  solvePuzzleFuel (S MAX_SEARCH_STATES) [["a"; "a"]; ["b"; "c"; "a"]] true
    = Some (Ok None, 4%nat) ∧
  applyMoves (new_GameState [["a"; "a"]; ["b"; "c"; "a"]] [])
             [{| from := 0; to := 1 |}; {| from := 1; to := 0 |}]
    = Ok (new_GameState [["a"; "a"]; ["b"; "c"]]
                        [{| from := 0; to := 1 |}; {| from := 1; to := 0 |}]) ∧
  isSolved (new_GameState [["a"; "a"]; ["b"; "c"]]
                          [{| from := 0; to := 1 |}; {| from := 1; to := 0 |}]) true
    = false.
Proof.
  split; [by vm_compute|]. split; [by vm_compute|]. split; [by vm_compute|].
  apply (solvePuzzle_null_means_unsolvable
           [["a"; "a"]; ["b"; "c"; "a"]] true 4
           [{| from := 0; to := 1 |}; {| from := 1; to := 0 |}]);
    [by vm_compute|by vm_compute|unfold MAX_SEARCH_STATES; lia|by vm_compute].
Defined.

(** ** The older solver *)

Lemma countFromTop_run c fromTop :
  ∃ k rest,
    fromTop = replicate k c ++ rest ∧ head rest ≠ Some c ∧
    Original.countFromTop c fromTop = Z.of_nat k.
Proof.
  induction fromTop as [|x l (k & rest & Hl & Hrest & Hk)]; simpl.
  - by exists 0%nat, [].
  - destruct (String.eqb_spec x c) as [->|Hne].
    + exists (S k), rest. simpl. rewrite <- Hl. split_and!; [done|done|lia].
    + exists 0%nat, (x :: l). simpl. split_and!; [done| |done]. congruence.
Qed.

Lemma Original_getTopColorSequence_run_aux vial c n :
  Original.getTopColorSequence vial = Some (c, n) →
  ∃ below, vial = below ++ replicate (Z.to_nat n) c ∧ 1 ≤ n ∧
           last below ≠ Some c ∧ last vial = Some c.
Proof.
  unfold Original.getTopColorSequence.
  destruct (last vial) as [c'|] eqn:Hl; [|done].
  destruct (countFromTop_run c' (reverse vial)) as (k & rest & Hrev & Hrest & ->).
  intros [= -> <-].
  apply (f_equal reverse) in Hrev.
  rewrite reverse_involutive, reverse_app, reverse_replicate in Hrev.
  exists (reverse rest). rewrite Nat2Z.id. split_and!; try done.
  - destruct k as [|k]; [|lia]. simpl in Hrev. rewrite app_nil_r in Hrev. subst vial.
    exfalso. apply Hrest. rewrite last_reverse in Hl. done.
  - rewrite last_reverse. done.
Qed.

(** X15. The run counter of the older solver measures the run at the top:
    its answer [(c, n)] for a vial means that the vial ends with exactly
    [n >= 1] entries of color [c] and that the entry below them, if any, is
    of another color; the answer is [null] for the empty vial only. *)
Theorem Original_getTopColorSequence_run vial :
  match Original.getTopColorSequence vial with
  | None => vial = []
  | Some (c, n) =>
      ∃ below, vial = below ++ replicate (Z.to_nat n) c ∧ 1 ≤ n ∧
               last below ≠ Some c ∧ last vial = Some c
  end.
Proof.
  destruct (Original.getTopColorSequence vial) as [[c n]|] eqn:Ht.
  - by apply Original_getTopColorSequence_run_aux.
  - unfold Original.getTopColorSequence in Ht.
    destruct (last vial) eqn:Hl; [done|]. by apply last_None.
Qed.

Lemma totalCount_sum c vs : totalCount c vs = sum_list_with (colorCount c) vs.
Proof.
  unfold totalCount, colorCount. induction vs as [|v vs IH]; simpl; [done|].
  by rewrite List.filter_app, length_app, IH.
Qed.

Lemma colorCount_app c l1 l2 :
  colorCount c (l1 ++ l2) = (colorCount c l1 + colorCount c l2)%nat.
Proof. unfold colorCount. by rewrite List.filter_app, length_app. Qed.

Lemma last_removelast {A} (l : list A) x : last l = Some x → l = removelast l ++ [x].
Proof.
  intros Hl. apply last_Some in Hl as [l' ->]. by rewrite removelast_last.
Qed.

Lemma pourUnits_colorCount c n source dest :
  (colorCount c (Original.pourUnits n source dest).1
   + colorCount c (Original.pourUnits n source dest).2
   = colorCount c source + colorCount c dest)%nat.
Proof.
  revert source dest. induction n as [|n IH]; intros source dest; simpl; [done|].
  destruct (last source) as [x|] eqn:Hl; [|done].
  rewrite IH. rewrite (last_removelast source x Hl) at 2.
  rewrite !colorCount_app. lia.
Qed.

Lemma Original_executeMove_Ok state from to state' :
  Original.executeMove state from to = Ok state' →
  ∃ source dest c n,
    isValidMove state from to = Ok true ∧
    vials state !! from = Some source ∧ vials state !! to = Some dest ∧
    Original.getTopColorSequence source = Some (c, n) ∧
    let poured :=
      Original.pourUnits
        (Z.to_nat (Z.min n (MAX_VIAL_CAPACITY - Z.of_nat (length dest)))) source dest in
    state' = new_GameState (<[to := poured.2]> (<[from := poured.1]> (vials state)))
                           (moves state ++ [{| from := from; to := to |}]).
Proof.
  unfold Original.executeMove.
  destruct (isValidMove state from to) as [[|]|e] eqn:Hv; simpl; try done.
  destruct (isValidMove_true _ _ _ Hv) as (source & dest & Hs & Hd & Hne & _).
  rewrite Hs, Hd. simpl.
  destruct (Original.getTopColorSequence source) as [[c n]|] eqn:Ht.
  - destruct (Original.pourUnits _ source dest) as [s' d'] eqn:Hp.
    intros [= <-]. exists source, dest, c, n. split_and!; try done.
    cbv zeta. by rewrite Hp.
  - unfold Original.getTopColorSequence in Ht.
    destruct (last source) eqn:Hl; [done|]. by apply last_None in Hl.
Qed.

(** X16. The pour of the older solver conserves the colors: after
    [Original.executeMove] every color counts as many entries as before,
    and [getTotalColorCounts] gives the same table. *)
Theorem Original_executeMove_conserves_colors state from to state'
  (Hmove : Original.executeMove state from to = Ok state') :
  (∀ c, totalCount c (vials state') = totalCount c (vials state)) ∧
  getTotalColorCounts (vials state') = getTotalColorCounts (vials state).
Proof.
  assert (∀ c, totalCount c (vials state') = totalCount c (vials state)) as Htotal.
  { intros c0.
    destruct (Original_executeMove_Ok _ _ _ _ Hmove)
      as (source & dest & c & n & Hv & Hs & Hd & _ & ->).
    apply isValidMove_true in Hv as (_ & _ & _ & _ & _ & Hne & _).
    cbv zeta. simpl. set (poured := Original.pourUnits _ source dest).
    rewrite !totalCount_sum.
    pose proof (sum_list_with_insert (colorCount c0) (vials state) from source
                  poured.1 Hs) as H1.
    assert (<[from := poured.1]> (vials state) !! to = Some dest) as Hd2
      by (by rewrite list_lookup_insert_ne).
    pose proof (sum_list_with_insert (colorCount c0) _ to dest poured.2 Hd2) as H2.
    pose proof (pourUnits_colorCount c0
                  (Z.to_nat (Z.min n (MAX_VIAL_CAPACITY - Z.of_nat (length dest))))
                  source dest) as H3.
    fold poured in H3. lia. }
  split; [done|]. apply map_eq. intros c.
  by rewrite !getTotalColorCounts_lookup, Htotal.
Qed.

Lemma Original_executeMove_conserves_colors_witness :
  (∀ c, totalCount c [["a"]; ["b"]] = totalCount c [["a"; "b"]; []]) ∧
  getTotalColorCounts [["a"]; ["b"]] = getTotalColorCounts [["a"; "b"]; []].
Proof.
  apply (Original_executeMove_conserves_colors
           (new_GameState [["a"; "b"]; []] []) 0 1
           (new_GameState [["a"]; ["b"]] [{| from := 0; to := 1 |}])).
  reflexivity.
Defined.

Lemma pourUnits_run below c n u dest :
  (u ≤ n)%nat →
  Original.pourUnits u (below ++ replicate n c) dest
  = (below ++ replicate (n - u) c, dest ++ replicate u c).
Proof.
  revert n dest. induction u as [|u IH]; intros n dest Hu; simpl.
  - by rewrite Nat.sub_0_r, app_nil_r.
  - destruct n as [|n]; [lia|].
    rewrite replicate_S_end, app_assoc, last_snoc, removelast_last, IH by lia.
    simpl. by rewrite <- app_assoc.
Qed.

(** X17. The two solvers pour alike where the refactored one is sound:
    for a valid move, when both run counters give the same answer for the
    source vial and the destination already holds at least [unitsToPour]
    entries, [executeMove] and [Original.executeMove] return the same
    state. *)
Theorem executeMove_agrees_with_original
    state from to source dest c n
  (Hvalid : isValidMove state from to = Ok true)
  (Hsource : vials state !! from = Some source)
  (Hdest : vials state !! to = Some dest)
  (Htop : getTopColorSequence source = Some (c, n))
  (Hrun : Original.getTopColorSequence source = Some (c, n))
  (Hfit : Z.min n (MAX_VIAL_CAPACITY - Z.of_nat (length dest))
          ≤ Z.of_nat (length dest)) :
  executeMove state from to = Original.executeMove state from to.
Proof.
  destruct (executeMove_valid _ _ _ _ _ Hvalid Hsource Hdest) as (c' & n' & Ht & ->).
  assert (c' = c ∧ n' = n) as [-> ->] by (split; congruence).
  unfold Original.executeMove. rewrite Hvalid, Hsource, Hdest. simpl. rewrite Hrun.
  pose proof (Original_getTopColorSequence_run_aux source c n Hrun)
    as (below & Hvial & Hn & _).
  apply isValidMove_true in Hvalid as (_ & d' & _ & Hd' & _ & Hne & Hlen & _).
  assert (d' = dest) as -> by congruence. unfold MAX_VIAL_CAPACITY in *.
  set (u := Z.min n (4 - Z.of_nat (length dest))) in *.
  rewrite (pouredVials_inserts _ _ _ _ _ source dest) by (done || lia).
  rewrite Hvial at 3.
  rewrite (pourUnits_run below c (Z.to_nat n) (Z.to_nat u)) by lia.
  do 3 f_equal.
  - f_equal. f_equal. lia.
  - f_equal. rewrite Hvial, length_app, length_replicate.
    replace (length below + Z.to_nat n - Z.to_nat u)%nat
      with (length below + (Z.to_nat n - Z.to_nat u))%nat by lia.
    by rewrite take_app_add, take_replicate, Nat.min_l by lia.
Qed.

Lemma executeMove_agrees_with_original_witness :
  executeMove (new_GameState [["a"; "b"; "b"]; ["c"; "b"]] []) 0 1
  = Original.executeMove (new_GameState [["a"; "b"; "b"]; ["c"; "b"]] []) 0 1.
Proof.
  apply (executeMove_agrees_with_original
           (new_GameState [["a"; "b"; "b"]; ["c"; "b"]] []) 0 1
           ["a"; "b"; "b"] ["c"; "b"] "b" 2);
    first [reflexivity | unfold MAX_VIAL_CAPACITY; simpl; lia].
Defined.

Lemma solvePuzzle_answers initialVials strictMode :
  ∃ answer, solvePuzzle initialVials strictMode = Some answer ∧
            (withinCapacity initialVials → ∃ result, answer = Ok result).
Proof.
  destruct (solvePuzzleFuel_raw (S MAX_SEARCH_STATES) initialVials strictMode)
    as (found & n & Hrun & _ & _ & Hfound & _); [lia|].
  unfold solvePuzzle. rewrite Hrun. simpl. eexists. split; [done|].
  intros Hcap. destruct found as [s|]; simpl; [|by exists None].
  destruct (Hfound s eq_refl) as [Hreach _].
  apply Reach_inRange in Hreach.
  destruct (reduce_enrichStep_within_capacity (moves s) [] initialVials Hcap Hreach)
    as (acc' & vs' & Hred & _); [constructor|].
  unfold enrichMoves. rewrite Hred. simpl. by eexists.
Qed.

(** X18. The [/solve] handler always answers, with status 200 or 500.  It
    reports success exactly when [solvePuzzle] returned a list, which is
    then the [moves] of the answer; a failure carries no moves and a
    message; status 500 is the answer to an exception of the solver, which
    a configuration within capacity never raises. *)
Theorem solveRoute_answers error_message vials strictMode :
  ∃ response,
    solveRoute error_message vials strictMode = Some response ∧
    (status response = 200 ∨ status response = 500) ∧
    (success (body response) = true ↔
       solvePuzzle vials strictMode = Some (Ok (Some (result_moves (body response))))) ∧
    (success (body response) = true → status response = 200) ∧
    (success (body response) = false →
       result_moves (body response) = [] ∧ is_Some (message (body response))) ∧
    (status response = 500 ↔ ∃ e, solvePuzzle vials strictMode = Some (Throw e)) ∧
    (withinCapacity vials → status response = 200).
Proof.
  destruct (solvePuzzle_answers vials strictMode) as (answer & Hsolve & Hcap).
  unfold solveRoute. rewrite Hsolve.
  destruct answer as [[solution|]|e]; eexists; (split; [reflexivity|]); simpl.
  - split; [by left|]. split; [done|]. split; [done|]. split; [done|].
    split; [|done]. split; [done|]. by intros [e [=]].
  - split; [by left|]. split; [split; [done|by intros [=]]|]. split; [done|].
    split; [by eauto|]. split; [|done]. split; [done|]. by intros [e [=]].
  - split; [by right|]. split; [split; [done|by intros [=]]|]. split; [done|].
    split; [by eauto|]. split; [split; [by eauto|done]|].
    intros Hc. by destruct (Hcap Hc) as [result [=]].
Qed.

(** ** More on one round of the search *)

Lemma findSolution_adds strictMode candidates visited queue r visited' queue' :
  findSolution strictMode candidates visited queue = (r, visited', queue') →
  visited ⊆ visited' ∧
  ∃ added, queue' = queue ++ added ∧
           (∀ s, s ∈ added → s ∈ candidates ∧ toString s ∈ visited') ∧
           match r with
           | Some s => last added = Some s ∧ isSolved s strictMode = true
           | None => added = candidates
           end.
Proof.
  revert visited queue. induction candidates as [|c rest IH]; intros visited queue; simpl.
  - intros [= <- <- <-]. split; [done|]. exists []. rewrite app_nil_r. split_and!; try done.
    intros s Hs. by apply elem_of_nil in Hs.
  - destruct (isSolved c strictMode) eqn:Hc.
    + intros [= <- <- <-]. split; [apply union_subseteq_r|]. exists [c].
      split_and!; try done.
      intros s Hs. apply list_elem_of_singleton in Hs as ->. split; [left|].
      by apply elem_of_union_l, elem_of_singleton.
    + intros Hf. apply IH in Hf as (Hsub & added & -> & Hadded & Hr).
      split; [etrans; [apply union_subseteq_r|done]|]. exists (c :: added). split; [by rewrite <- app_assoc|]. split.
      * intros s Hs. apply elem_of_cons in Hs as [->|Hs].
        -- split; [left|]. by apply Hsub, elem_of_union_l, elem_of_singleton.
        -- destruct (Hadded s Hs). split; [by right|done].
      * destruct r as [s|].
        -- destruct Hr as [Hl Hs]. split; [|done]. rewrite last_cons, Hl. done.
        -- by rewrite Hr.
Qed.

(** X19. One round of [processState] only adds: every key that was
    visited stays visited, the queue keeps its states in place and gets
    new ones at its end, and each new state is one move away from the
    processed state, was not visited before and is visited afterwards.
    When the round finds no solution it has queued every unseen
    successor. *)
Theorem processState_only_adds initialVials strictMode state visited queue
    r visited' queue'
  (Hround : processState initialVials strictMode state visited queue
            = Ok (r, visited', queue')) :
  visited ⊆ visited' ∧
  ∃ added,
    queue' = queue ++ added ∧
    (∀ s, s ∈ added →
          (∃ from to, executeMove state from to = Ok s) ∧
          (toString s ∉ visited) ∧ (toString s ∈ visited')) ∧
    (r = None →
     ∀ from to s, executeMove state from to = Ok s →
                  toString s ∉ visited → s ∈ added).
Proof.
  rewrite processState_raw in Hround.
  destruct (findSolution strictMode (unseen visited (successors state)) visited queue)
    as [[found visited1] queue1] eqn:Hfind.
  apply findSolution_adds in Hfind as (Hsub & added & -> & Hadded & Hr).
  assert (visited1 = visited' ∧ queue ++ added = queue' ∧ (r = None → found = None))
    as (<- & <- & Hnone).
  { destruct found as [s|]; simpl in Hround.
    - destruct (enrichMoves (moves s) initialVials); simpl in Hround; [|done].
      by injection Hround as <- <- <-.
    - by injection Hround as <- <- <-. }
  split; [done|]. exists added. split_and!; [done| |].
  - intros s Hs. destruct (Hadded s Hs) as [Hin Hvis].
    apply elem_of_unseen in Hin as [Hin Hfresh].
    apply elem_of_successors in Hin as (m & Hv & ->).
    split_and!; [|done|done]. exists (from m), (to m). by apply executeMove_moved.
  - intros Hrn f t s He Hfresh. rewrite (Hnone Hrn) in Hr. rewrite Hr.
    apply elem_of_unseen. split; [|done].
    apply executeMove_Ok in He as [Hv ->]. apply elem_of_successors. eauto.
Qed.

Lemma processState_only_adds_witness :
  ({[ "a,b|" ]} : gset string) ⊆ {[ "a|" ]} ∪ {[ "a,b|" ]} ∧
  ∃ added,
    [new_GameState [["a"]; []] [{| from := 0; to := 1 |}]] = [] ++ added ∧
    (∀ s, s ∈ added →
          (∃ from to, executeMove (new_GameState [["a"; "b"]; []] []) from to = Ok s) ∧
          (toString s ∉ ({[ "a,b|" ]} : gset string)) ∧
          (toString s ∈ ({[ "a|" ]} ∪ {[ "a,b|" ]} : gset string))) ∧
    (Some [{| mfrom := 0; mto := 1; color := "b"; units := 1 |}] = None →
     ∀ from to s, executeMove (new_GameState [["a"; "b"]; []] []) from to = Ok s →
                  toString s ∉ ({[ "a,b|" ]} : gset string) → s ∈ added).
Proof.
  apply (processState_only_adds [["a"; "b"]; []] false
           (new_GameState [["a"; "b"]; []] []) {[ "a,b|" ]} []).
  reflexivity.
Defined.

(** X20. The annotator starts as the search does: when the first move of a
    path is valid in the initial configuration, the first annotated move
    of [enrichMoves] carries the color that [getTopColorSequence] reads on
    the source and the number of units that [executeMove] takes off it. *)
Theorem enrichMoves_first_move initialVials m rest source dest c count annotation
  (Hvalid : isValidMove (new_GameState initialVials []) (from m) (to m) = Ok true)
  (Hsource : initialVials !! from m = Some source)
  (Hdest : initialVials !! to m = Some dest)
  (Htop : getTopColorSequence source = Some (c, count))
  (Hrun : enrichMoves (m :: rest) initialVials = Ok annotation) :
  head annotation
  = Some {| mfrom := from m; mto := to m; color := c;
            units := Z.min count (MAX_VIAL_CAPACITY - Z.of_nat (length dest)) |}.
Proof.
  rewrite getTopColorSequence_eq in Htop.
  destruct (last source) as [c'|] eqn:Hl; [|done]. injection Htop as -> <-.
  unfold enrichMoves in Hrun. rewrite reduce_res_cons in Hrun.
  pose proof (enrichStep_cases [] initialVials m) as Hc. rewrite Hsource, Hdest, Hl in Hc.
  destruct source as [|x source]; [done|].
  cbv zeta in Hc. destruct (decide _); rewrite Hc in Hrun; [done|].
  simpl in Hrun.
  destruct (Js.reduce_res enrichStep rest _) as [[acc vs]|] eqn:Hred; [|done].
  apply reduce_enrichStep_Ok in Hred as (_ & new & -> & _).
  simpl in Hrun. by injection Hrun as <-.
Qed.

Lemma enrichMoves_first_move_witness :
  head [{| mfrom := 1; mto := 0; color := "a"; units := 4 |};
        {| mfrom := 2; mto := 0; color := "c"; units := 0 |}]
  = Some {| mfrom := 1; mto := 0; color := "a";
            units := Z.min 4 (MAX_VIAL_CAPACITY - 0) |}.
Proof.
  apply (enrichMoves_first_move
           [[]; ["a"; "a"; "a"; "a"]; ["a"; "b"; "c"]]
           {| from := 1; to := 0 |}
           [{| from := 2; to := 0 |}; {| from := 2; to := 0 |}]
           ["a"; "a"; "a"; "a"] [] "a" 4); reflexivity.
Defined.

Lemma occurrences_replicate c k : occurrences c (replicate k c) = Z.of_nat k.
Proof.
  induction k as [|k IH]; [done|]. simpl replicate.
  rewrite occurrences_cons, String.eqb_refl, IH. lia.
Qed.

Lemma occurrences_zero c l : occurrences c l = 0 ↔ c ∉ l.
Proof.
  induction l as [|x l IH]; [by split; [intros _; apply not_elem_of_nil|]|].
  rewrite occurrences_cons, not_elem_of_cons. pose proof (occurrences_bounds c l).
  destruct (String.eqb_spec x c) as [->|Hne].
  - split; [lia|]. by intros [? _].
  - rewrite Z.add_0_l, IH. split; [by intros ?; split|by intros [_ ?]].
Qed.

(** X21. The two run counters read the same top color, and the count of
    the refactored solver is never below the one of the older solver: it
    exceeds it by the number of entries of the top color that lie below
    the run at the top, so both agree exactly when the top color does not
    occur below its run. *)
Theorem getTopColorSequence_versus_original vial c n
  (Htop : getTopColorSequence vial = Some (c, n)) :
  ∃ below run,
    vial = below ++ replicate (Z.to_nat run) c ∧
    Original.getTopColorSequence vial = Some (c, run) ∧
    n = run + occurrences c below ∧
    run ≤ n ∧
    (n = run ↔ c ∉ below).
Proof.
  rewrite getTopColorSequence_eq in Htop.
  destruct (last vial) as [c'|] eqn:Hl; [|done]. injection Htop as -> <-.
  destruct (Original.getTopColorSequence vial) as [[c0 run]|] eqn:Ho.
  2:{ unfold Original.getTopColorSequence in Ho. by rewrite Hl in Ho. }
  destruct (Original_getTopColorSequence_run_aux vial c0 run Ho)
    as (below & Hvial & Hrun & _ & Hl').
  assert (c0 = c) as -> by congruence.
  exists below, run. split; [done|]. split; [done|].
  assert (occurrences c vial = run + occurrences c below) as Hocc.
  { rewrite Hvial at 1. rewrite occurrences_app, occurrences_replicate. lia. }
  pose proof (occurrences_bounds c below).
  split; [done|]. split; [lia|]. rewrite <- occurrences_zero. lia.
Qed.

Lemma getTopColorSequence_versus_original_witness :
  ∃ below run,
    ["red"; "blue"; "red"] = below ++ replicate (Z.to_nat run) "red" ∧
    Original.getTopColorSequence ["red"; "blue"; "red"] = Some ("red", run) ∧
    2 = run + occurrences "red" below ∧
    run ≤ 2 ∧
    (2 = run ↔ "red" ∉ below).
Proof.
  apply (getTopColorSequence_versus_original ["red"; "blue"; "red"] "red" 2).
  reflexivity.
Defined.

(** ** The replay of the viewer *)

Lemma pourOne_length vs from to vs' :
  Viewer.pourOne vs from to = Ok vs' → length vs' = length vs.
Proof.
  unfold Viewer.pourOne.
  destruct (vs !! to) as [d|]; simpl; [|done].
  destruct (vs !! from) as [s|]; simpl; [|done].
  destruct (Viewer.pop s) as [x rest].
  destruct (<[from := rest]> vs !! to) as [d'|]; simpl; [|done].
  intros [= <-]. by rewrite !length_insert.
Qed.

Lemma pourLoop_length n vs from to vs' :
  Viewer.pourLoop n vs from to = Ok vs' → length vs' = length vs.
Proof.
  revert vs. induction n as [|n IH]; intros vs; simpl; [by intros [= <-]|].
  destruct (Viewer.pourOne vs from to) as [vs1|] eqn:H1; simpl; [|done].
  intros Hn. apply IH in Hn. apply pourOne_length in H1. congruence.
Qed.

Lemma jsonCopy_length vs : length (Viewer.jsonCopy vs) = length vs.
Proof. unfold Viewer.jsonCopy. by rewrite length_map. Qed.

Lemma replay_states moves vs states states' :
  Viewer.replay moves vs states = Ok states' →
  length states' = (length states + length moves)%nat ∧
  states `prefix_of` states' ∧
  (Forall (λ st, length st = length vs) states →
   Forall (λ st, length st = length vs) states').
Proof.
  revert vs states. induction moves as [|move rest IH]; intros vs states; simpl.
  - intros [= <-]. split; [lia|done].
  - destruct (Viewer.pourLoop _ vs _ _) as [poured|] eqn:Hp; simpl; [|done].
    intros Hr. apply pourLoop_length in Hp.
    apply IH in Hr as (Hlen & Hpre & Hall). rewrite length_app in Hlen. simpl in Hlen.
    split; [lia|]. split; [etrans; [by apply prefix_app_r|done]|].
    intros Hst. rewrite <- Hp. apply Hall. apply Forall_app. split.
    + by rewrite Hp.
    + apply Forall_singleton. apply jsonCopy_length.
Qed.

(** X22. When [generateVialStates] returns, it has one state per move
    plus the initial one, which comes first, and every state has as many
    vials as the initial configuration. *)
Theorem generateVialStates_states initialVials moves states
  (Hrun : Viewer.generateVialStates initialVials moves = Ok states) :
  length states = S (length moves) ∧
  head states = Some (Viewer.entries initialVials) ∧
  Forall (λ st, length st = length initialVials) states.
Proof.
  unfold Viewer.generateVialStates in Hrun.
  apply replay_states in Hrun as (Hlen & Hpre & Hall). split; [done|]. split.
  - destruct Hpre as [k ->]. done.
  - assert (length (Viewer.entries initialVials) = length initialVials) as He
      by apply length_map.
    rewrite jsonCopy_length, He in Hall. apply Hall. by apply Forall_singleton.
Qed.

Lemma generateVialStates_states_witness :
  length [Viewer.entries [["a"; "b"]; []]; Viewer.entries [["a"]; ["b"]]]
    = S (length [{| mfrom := 0; mto := 1; color := "b"; units := 1 |}]) ∧
  head [Viewer.entries [["a"; "b"]; []]; Viewer.entries [["a"]; ["b"]]]
    = Some (Viewer.entries [["a"; "b"]; []]) ∧
  Forall (λ st, length st = length [["a"; "b"]; @nil string])
         [Viewer.entries [["a"; "b"]; []]; Viewer.entries [["a"]; ["b"]]].
Proof.
  apply (generateVialStates_states [["a"; "b"]; []]
           [{| mfrom := 0; mto := 1; color := "b"; units := 1 |}]).
  reflexivity.
Defined.

Lemma pourOne_distinct vs from to below x dest :
  from ≠ to → vs !! from = Some (below ++ [x]) → vs !! to = Some dest →
  Viewer.pourOne vs from to = Ok (<[to := dest ++ [x]]> (<[from := below]> vs)).
Proof.
  intros Hne Hs Hd. unfold Viewer.pourOne. rewrite Hd, Hs. simpl.
  unfold Viewer.pop. rewrite last_snoc, removelast_last.
  rewrite list_lookup_insert_ne, Hd by done. done.
Qed.

(** X23. One annotated move in the viewer: with [from] and [to] distinct,
    [n] passes of the loop take the [n] top entries of the source and put
    them on the destination in the order they are popped, the top entry
    first; no entry is lost or made up, whatever its color. *)
Theorem pourLoop_moves_top_entries vs from to below top dest
  (Hne : from ≠ to)
  (Hsource : vs !! from = Some (below ++ top))
  (Hdest : vs !! to = Some dest) :
  Viewer.pourLoop (length top) vs from to
  = Ok (<[to := dest ++ reverse top]> (<[from := below]> vs)).
Proof.
  revert vs dest Hsource Hdest.
  induction top as [|x top IH] using rev_ind; intros vs dest Hs Hd; simpl.
  - rewrite app_nil_r in Hs. change (reverse []) with (@nil Viewer.slot).
    by rewrite app_nil_r, (list_insert_id vs from below Hs), (list_insert_id vs to dest Hd).
  - rewrite length_app. simpl. rewrite Nat.add_1_r. simpl.
    rewrite app_assoc in Hs.
    rewrite (pourOne_distinct _ _ _ _ _ _ Hne Hs Hd). simpl.
    rewrite (IH _ (dest ++ [x])).
    + rewrite reverse_app. simpl. rewrite <- app_assoc.
      rewrite (list_insert_insert_ne _ from to) by done.
      by rewrite !list_insert_insert_eq.
    + rewrite list_lookup_insert_ne by done.
      apply list_lookup_insert_eq. by eapply lookup_lt_Some.
    + apply list_lookup_insert_eq. rewrite length_insert. by eapply lookup_lt_Some.
Qed.

Lemma pourLoop_moves_top_entries_witness :
  Viewer.pourLoop (length [Viewer.Entry "b"; Viewer.Entry "c"])
    (Viewer.entries [["a"; "b"; "c"]; ["d"]]) 0 1
  = Ok (<[1%nat := [Viewer.Entry "d"] ++ reverse [Viewer.Entry "b"; Viewer.Entry "c"]]>
          (<[0%nat := [Viewer.Entry "a"]]> (Viewer.entries [["a"; "b"; "c"]; ["d"]]))).
Proof.
  apply (pourLoop_moves_top_entries (Viewer.entries [["a"; "b"; "c"]; ["d"]]) 0 1
           [Viewer.Entry "a"] [Viewer.Entry "b"; Viewer.Entry "c"] [Viewer.Entry "d"]);
    [lia|reflexivity|reflexivity].
Defined.
